(** * Roster and party state machine of the bus-service manager (App.tsx)

    A shallow embedding of the state held by the [App] component and of its
    event handlers, followed by the properties of the handlers.

    Conventions of the embedding.
    - A JavaScript string is the list of its UTF-16 code units ([jsstring]).
    - A JavaScript [number] that the handlers store or compare is modelled as
      an integer of [Z]: identifiers, [power], [relayCount] and the party
      counter.  Printing with a template literal is modelled for integers
      that JavaScript prints in plain decimal (magnitude below 10^21).
    - [Date.now()] is an input of the handlers that read the clock.
    - [alert(...)] is an output of the handlers that raise one.
    - Every handler runs to completion on the state of the last render, so a
      handler is a function from [AppState] to [AppState]. *)

From Stdlib Require Import Ascii String.
From Stdlib Require Import List ZArith NArith Lia Bool.
From Stdlib Require Import Permutation Sorted.
From Equations Require Import Equations.
From Equations.Prop Require Import Logic.
Import ListNotations.

Local Open Scope Z_scope.

(* ================================================================== *)
(** ** JavaScript strings and the built-ins the handlers call *)
(* ================================================================== *)

Module JS.

Definition codeunit := N.
Definition jsstring := list codeunit.

(** An ASCII literal as a JavaScript string. *)
Definition lit (s : string) : jsstring :=
  map N_of_ascii (list_ascii_of_string s).

Definition COLON : codeunit := 58%N.
Definition LF : codeunit := 10%N.
Definition MINUS : codeunit := 45%N.
Definition PLUS : codeunit := 43%N.
Definition ZERO : codeunit := 48%N.

(** ECMAScript WhiteSpace and LineTerminator: what [String.prototype.trim]
    and the first step of [parseInt] strip. *)
Definition isWhiteSpace (c : codeunit) : bool :=
  ((9 <=? c) && (c <=? 13) || (c =? 32) || (c =? 160) || (c =? 5760)
   || (8192 <=? c) && (c <=? 8202)
   || (c =? 8232) || (c =? 8233) || (c =? 8239) || (c =? 8287)
   || (c =? 12288) || (c =? 65279))%N.

Fixpoint dropWhile {A} (f : A -> bool) (l : list A) : list A :=
  match l with
  | [] => []
  | x :: l' => if f x then dropWhile f l' else l
  end.

Fixpoint takeWhile {A} (f : A -> bool) (l : list A) : list A :=
  match l with
  | [] => []
  | x :: l' => if f x then x :: takeWhile f l' else []
  end.

Definition trimStart (s : jsstring) : jsstring := dropWhile isWhiteSpace s.
Definition trimEnd (s : jsstring) : jsstring :=
  rev (dropWhile isWhiteSpace (rev s)).

(** [s.trim()] *)
Definition trim (s : jsstring) : jsstring := trimEnd (trimStart s).

(** [s.split(sep)] for a separator of one code unit: never the empty
    array; the empty string gives one empty field. *)
Fixpoint split (sep : codeunit) (s : jsstring) : list jsstring :=
  match s with
  | [] => [[]]
  | c :: s' =>
      if (c =? sep)%N then [] :: split sep s'
      else match split sep s' with
           | [] => [[c]]
           | w :: ws => (c :: w) :: ws
           end
  end.

(** [a.join(sep)] *)
Fixpoint join (sep : jsstring) (a : list jsstring) : jsstring :=
  match a with
  | [] => []
  | [s] => s
  | s :: a' => s ++ sep ++ join sep a'
  end.

(** [ids.includes(id)] on an array of numbers. *)
Definition includes (ids : list Z) (id : Z) : bool :=
  existsb (fun i => i =? id) ids.

Definition isDigit (c : codeunit) : bool := ((48 <=? c) && (c <=? 57))%N.

(** The mathematical value of a run of decimal digits, read left to right. *)
Definition digitsValue (ds : jsstring) : N :=
  fold_left (fun acc c => acc * 10 + (c - 48))%N ds 0%N.

(** [parseInt(s, 10)]: leading white space is skipped, one sign is read, then
    the longest run of decimal digits; [None] is NaN (no digit was found).
    What follows the digits is ignored. *)
Definition parseInt (s : jsstring) : option Z :=
  let s1 := trimStart s in
  let '(neg, s2) :=
    match s1 with
    | c :: r =>
        if (c =? MINUS)%N then (true, r)
        else if (c =? PLUS)%N then (false, r)
        else (false, s1)
    | [] => (false, [])
    end in
  match takeWhile isDigit s2 with
  | [] => None
  | ds => Some (if neg then - Z.of_N (digitsValue ds) else Z.of_N (digitsValue ds))
  end.

(** The decimal digits of a natural number, most significant first. *)
Equations? digits (n : N) : jsstring by wf (N.to_nat (N.log2 n)) lt :=
digits n with inspect (N.ltb n 10) := {
  | exist _ true _ => [(48 + n)%N]
  | exist _ false H => digits (n / 10) ++ [(48 + n mod 10)%N] }.
Proof.
  apply N.ltb_ge in H.
  assert (H0 : (0 < n / 10)%N) by (apply N.div_str_pos; lia).
  assert (Hlt : (N.log2 (n / 10) < N.log2 n)%N).
  { apply N.log2_lt_pow2; [exact H0|].
    destruct (N.log2_spec n ltac:(lia)) as [_ Hhi].
    rewrite N.pow_succ_r' in Hhi.
    pose proof (N.Div0.mul_div_le n 10). lia. }
  lia.
Qed.

(** [`${n}`] for an integer [n] that prints in plain decimal. *)
Definition numberToString (n : Z) : jsstring :=
  if n <? 0 then MINUS :: digits (Z.abs_N n) else digits (Z.to_N n).

End JS.

Import JS.

(* ================================================================== *)
(** ** Data model (types.ts) *)
(* ================================================================== *)

(** ['waiting' | 'in-party' | 'off-duty'] *)
Inductive KnightStatus := KWaiting | KInParty | KOffDuty.

(** ['waiting' | 'in-party' | 'completed'] *)
Inductive ClientStatus := CWaiting | CInParty | CCompleted.

Definition KnightStatus_eqb (a b : KnightStatus) : bool :=
  match a, b with
  | KWaiting, KWaiting | KInParty, KInParty | KOffDuty, KOffDuty => true
  | _, _ => false
  end.

Definition ClientStatus_eqb (a b : ClientStatus) : bool :=
  match a, b with
  | CWaiting, CWaiting | CInParty, CInParty | CCompleted, CCompleted => true
  | _, _ => false
  end.

Module Knight.
Record t := mk {
  id : Z;
  name : jsstring;
  job : jsstring;
  power : Z;
  relayCount : Z;
  status : KnightStatus }.
(** [{ ...k, status: s }] *)
Definition withStatus (k : t) (s : KnightStatus) : t :=
  mk (id k) (name k) (job k) (power k) (relayCount k) s.
End Knight.

Module Client.
Record t := mk {
  id : Z;
  name : jsstring;
  job : jsstring;
  power : Z;
  notes : jsstring;
  status : ClientStatus }.
(** [{ ...c, status: s }] *)
Definition withStatus (c : t) (s : ClientStatus) : t :=
  mk (id c) (name c) (job c) (power c) (notes c) s.
End Client.

Module Party.
Record t := mk {
  id : Z;
  knights : list Knight.t;
  clients : list Client.t;
  isCompleted : bool }.
End Party.

(** What the add and edit forms deliver: [power] is the number typed by the
    operator, before scaling. *)
Module FormData.
Record t := mk {
  name : jsstring;
  job : jsstring;
  power : Z;
  notes : jsstring }.
End FormData.

(** ['knight' | 'client'] *)
Inductive ItemType := TKnight | TClient.

(** The three alerts the handlers raise: "select at least one of each"
    (handleCreateParty), "nothing to insert" (handleImportKnights), and the
    import summary with the number of knights added and of lines ignored. *)
Inductive Alert :=
| AlertSelectBoth
| AlertNoData
| AlertImported (added ignored : nat).

(* ================================================================== *)
(** ** The state of [App] *)
(* ================================================================== *)

(** The [useState] cells that the handlers below read or write.  The cells
    that only open the add forms and the completion dialog are left out. *)
Record AppState := mkState {
  knights : list Knight.t;
  clients : list Client.t;
  parties : list Party.t;
  selectedKnightIds : list Z;
  selectedClientIds : list Z;
  partyIdCounter : Z;
  itemToDelete : option (ItemType * Z);
  itemToEdit : option (Knight.t + Client.t);
  isExportModalOpen : bool;
  isImportModalOpen : bool;
  exportedKnightData : jsstring }.

Definition initialState : AppState :=
  mkState [] [] [] [] [] 1 None None false false [].

Definition setKnights (v : list Knight.t) (s : AppState) : AppState :=
  mkState v (clients s) (parties s) (selectedKnightIds s) (selectedClientIds s)
    (partyIdCounter s) (itemToDelete s) (itemToEdit s)
    (isExportModalOpen s) (isImportModalOpen s) (exportedKnightData s).

Definition setClients (v : list Client.t) (s : AppState) : AppState :=
  mkState (knights s) v (parties s) (selectedKnightIds s) (selectedClientIds s)
    (partyIdCounter s) (itemToDelete s) (itemToEdit s)
    (isExportModalOpen s) (isImportModalOpen s) (exportedKnightData s).

Definition setParties (v : list Party.t) (s : AppState) : AppState :=
  mkState (knights s) (clients s) v (selectedKnightIds s) (selectedClientIds s)
    (partyIdCounter s) (itemToDelete s) (itemToEdit s)
    (isExportModalOpen s) (isImportModalOpen s) (exportedKnightData s).

Definition setSelectedKnightIds (v : list Z) (s : AppState) : AppState :=
  mkState (knights s) (clients s) (parties s) v (selectedClientIds s)
    (partyIdCounter s) (itemToDelete s) (itemToEdit s)
    (isExportModalOpen s) (isImportModalOpen s) (exportedKnightData s).

Definition setSelectedClientIds (v : list Z) (s : AppState) : AppState :=
  mkState (knights s) (clients s) (parties s) (selectedKnightIds s) v
    (partyIdCounter s) (itemToDelete s) (itemToEdit s)
    (isExportModalOpen s) (isImportModalOpen s) (exportedKnightData s).

Definition setPartyIdCounter (v : Z) (s : AppState) : AppState :=
  mkState (knights s) (clients s) (parties s) (selectedKnightIds s)
    (selectedClientIds s) v (itemToDelete s) (itemToEdit s)
    (isExportModalOpen s) (isImportModalOpen s) (exportedKnightData s).

Definition setItemToDelete (v : option (ItemType * Z)) (s : AppState) : AppState :=
  mkState (knights s) (clients s) (parties s) (selectedKnightIds s)
    (selectedClientIds s) (partyIdCounter s) v (itemToEdit s)
    (isExportModalOpen s) (isImportModalOpen s) (exportedKnightData s).

Definition setItemToEdit (v : option (Knight.t + Client.t)) (s : AppState) : AppState :=
  mkState (knights s) (clients s) (parties s) (selectedKnightIds s)
    (selectedClientIds s) (partyIdCounter s) (itemToDelete s) v
    (isExportModalOpen s) (isImportModalOpen s) (exportedKnightData s).

Definition setIsExportModalOpen (v : bool) (s : AppState) : AppState :=
  mkState (knights s) (clients s) (parties s) (selectedKnightIds s)
    (selectedClientIds s) (partyIdCounter s) (itemToDelete s) (itemToEdit s)
    v (isImportModalOpen s) (exportedKnightData s).

Definition setIsImportModalOpen (v : bool) (s : AppState) : AppState :=
  mkState (knights s) (clients s) (parties s) (selectedKnightIds s)
    (selectedClientIds s) (partyIdCounter s) (itemToDelete s) (itemToEdit s)
    (isExportModalOpen s) v (exportedKnightData s).

Definition setExportedKnightData (v : jsstring) (s : AppState) : AppState :=
  mkState (knights s) (clients s) (parties s) (selectedKnightIds s)
    (selectedClientIds s) (partyIdCounter s) (itemToDelete s) (itemToEdit s)
    (isExportModalOpen s) (isImportModalOpen s) v.

(* ================================================================== *)
(** ** Event handlers *)
(* ================================================================== *)

(** [handleAddKnight]; [now] is the value of [Date.now()]. *)
Definition handleAddKnight (now : Z) (data : FormData.t) (s : AppState) : AppState :=
  let newKnight :=
    Knight.mk now (FormData.name data) (FormData.job data)
      (FormData.power data * 1000) 0 KWaiting in
  setKnights (knights s ++ [newKnight]) s.

(** [handleAddClient] *)
Definition handleAddClient (now : Z) (data : FormData.t) (s : AppState) : AppState :=
  let newClient :=
    Client.mk now (FormData.name data) (FormData.job data)
      (FormData.power data * 1000) (FormData.notes data) CWaiting in
  setClients (clients s ++ [newClient]) s.

(** [handleUpdateItem]: the item under edit is the snapshot kept in
    [itemToEdit]; a knight is told from a client by its [relayCount] field.
    The form's [notes] is spread into a knight as a property that nothing
    reads; the record of a knight has no place for it. *)
Definition handleUpdateItem (updatedData : FormData.t) (s : AppState) : AppState :=
  match itemToEdit s with
  | None => s
  | Some (inl e) =>
      let updatedItem :=
        Knight.mk (Knight.id e) (FormData.name updatedData)
          (FormData.job updatedData) (FormData.power updatedData * 1000)
          (Knight.relayCount e) (Knight.status e) in
      setItemToEdit None
        (setKnights
           (map (fun k => if Knight.id k =? Knight.id e then updatedItem else k)
              (knights s)) s)
  | Some (inr e) =>
      let updatedItem :=
        Client.mk (Client.id e) (FormData.name updatedData)
          (FormData.job updatedData) (FormData.power updatedData * 1000)
          (FormData.notes updatedData) (Client.status e) in
      setItemToEdit None
        (setClients
           (map (fun c => if Client.id c =? Client.id e then updatedItem else c)
              (clients s)) s)
  end.

(** [handleDelete] *)
Definition handleDelete (s : AppState) : AppState :=
  match itemToDelete s with
  | None => s
  | Some (TKnight, id) =>
      setItemToDelete None
        (setKnights (filter (fun k => negb (Knight.id k =? id)) (knights s)) s)
  | Some (TClient, id) =>
      setItemToDelete None
        (setClients (filter (fun c => negb (Client.id c =? id)) (clients s)) s)
  end.

(** [prev.includes(id) ? prev.filter(i => i !== id) : [...prev, id]] *)
Definition toggleId (id : Z) (prev : list Z) : list Z :=
  if includes prev id then filter (fun i => negb (i =? id)) prev
  else prev ++ [id].

(** [toggleSelection] *)
Definition toggleSelection (id : Z) (type : ItemType) (s : AppState) : AppState :=
  match type with
  | TKnight =>
      match find (fun k => Knight.id k =? id) (knights s) with
      | Some knight =>
          if negb (KnightStatus_eqb (Knight.status knight) KWaiting) then s
          else setSelectedKnightIds (toggleId id (selectedKnightIds s)) s
      | None => setSelectedKnightIds (toggleId id (selectedKnightIds s)) s
      end
  | TClient =>
      match find (fun c => Client.id c =? id) (clients s) with
      | Some client =>
          if negb (ClientStatus_eqb (Client.status client) CWaiting) then s
          else setSelectedClientIds (toggleId id (selectedClientIds s)) s
      | None => setSelectedClientIds (toggleId id (selectedClientIds s)) s
      end
  end.

(** [handleCreateParty] *)
Definition handleCreateParty (s : AppState) : AppState * option Alert :=
  match selectedKnightIds s, selectedClientIds s with
  | [], _ | _, [] => (s, Some AlertSelectBoth)
  | _, _ =>
      let partyKnights :=
        filter (fun k => includes (selectedKnightIds s) (Knight.id k)) (knights s) in
      let partyClients :=
        filter (fun c => includes (selectedClientIds s) (Client.id c)) (clients s) in
      let newParty := Party.mk (partyIdCounter s) partyKnights partyClients false in
      let s1 := setParties (parties s ++ [newParty]) s in
      let s2 :=
        setKnights
          (map (fun k =>
                  if includes (selectedKnightIds s) (Knight.id k)
                  then Knight.withStatus k KInParty else k) (knights s1)) s1 in
      let s3 :=
        setClients
          (map (fun c =>
                  if includes (selectedClientIds s) (Client.id c)
                  then Client.withStatus c CInParty else c) (clients s2)) s2 in
      let s4 := setPartyIdCounter (partyIdCounter s3 + 1) s3 in
      (setSelectedClientIds [] (setSelectedKnightIds [] s4), None)
  end.

(** [handleCompleteMission] *)
Definition handleCompleteMission (partyId : Z) (s : AppState) : AppState :=
  match find (fun p => Party.id p =? partyId) (parties s) with
  | None => s
  | Some partyToComplete =>
      let knightIds := map Knight.id (Party.knights partyToComplete) in
      let clientIds := map Client.id (Party.clients partyToComplete) in
      let s1 :=
        setKnights
          (map (fun k =>
                  if includes knightIds (Knight.id k)
                  then Knight.mk (Knight.id k) (Knight.name k) (Knight.job k)
                         (Knight.power k) (Knight.relayCount k + 1) KWaiting
                  else k) (knights s)) s in
      let s2 :=
        setClients
          (map (fun c =>
                  if includes clientIds (Client.id c)
                  then Client.withStatus c CCompleted else c) (clients s1)) s1 in
      setParties (filter (fun p => negb (Party.id p =? partyId)) (parties s2)) s2
  end.

(** [handleToggleKnightStatus] *)
Definition handleToggleKnightStatus (knightId : Z) (s : AppState) : AppState :=
  setKnights
    (map (fun k =>
            if Knight.id k =? knightId then
              match Knight.status k with
              | KWaiting => Knight.withStatus k KOffDuty
              | KOffDuty => Knight.withStatus k KWaiting
              | KInParty => k
              end
            else k) (knights s)) s.

(** [statusOrder] of [sortedKnights] *)
Definition statusOrder (st : KnightStatus) : Z :=
  match st with
  | KWaiting => 1
  | KInParty => 2
  | KOffDuty => 3
  end.

(** [Array.prototype.sort(compare)] is a stable sort; for a comparator that
    is a consistent order its result is determined, and a stable insertion
    sort computes it: an element goes before the first later element that
    does not compare below it. *)
Fixpoint insertBy {A} (compare : A -> A -> Z) (x : A) (l : list A) : list A :=
  match l with
  | [] => [x]
  | y :: l' => if compare x y <=? 0 then x :: l else y :: insertBy compare x l'
  end.

Definition sortBy {A} (compare : A -> A -> Z) (l : list A) : list A :=
  fold_right (insertBy compare) [] l.

(** [sortedKnights], the memo over [knights]. *)
Definition sortedKnights (ks : list Knight.t) : list Knight.t :=
  sortBy (fun a b => statusOrder (Knight.status a) - statusOrder (Knight.status b)) ks.

(** [`${k.name}:${k.job}:${k.power}:${k.relayCount}`] *)
Definition exportLine (k : Knight.t) : jsstring :=
  Knight.name k ++ [COLON] ++ Knight.job k ++ [COLON]
  ++ numberToString (Knight.power k) ++ [COLON]
  ++ numberToString (Knight.relayCount k).

(** The text [handleExportKnights] builds. *)
Definition exportKnightRoster (ks : list Knight.t) : jsstring :=
  join [LF] (map exportLine (sortedKnights ks)).

(** [handleExportKnights] *)
Definition handleExportKnights (s : AppState) : AppState :=
  setIsExportModalOpen true
    (setExportedKnightData (exportKnightRoster (knights s)) s).

(** A string is truthy when it is not empty. *)
Definition truthy (s : jsstring) : bool :=
  match s with [] => false | _ => true end.

(** The body of the [forEach] callback of [handleImportKnights] for one
    line: the knight it pushes, or [None] when it counts the line as
    invalid.  [now] is the reading of [Date.now()] made for this line. *)
Definition importLine (now : Z) (index : nat) (line : jsstring) : option Knight.t :=
  match split COLON line with
  | [name; job; powerStr; relayCountStr] =>
      match parseInt powerStr, parseInt relayCountStr with
      | Some power, Some relayCount =>
          if truthy name && truthy job then
            Some (Knight.mk (now + Z.of_nat index) (trim name) (trim job)
                    power relayCount KOffDuty)
          else None
      | _, _ => None
      end
  | _ => None
  end.

(** [lines.forEach((line, index) => ...)], from position [index] on, over
    the two accumulators [newKnights] and [invalidLines].  [clock i] is the
    reading of [Date.now()] while line [i] is handled. *)
Fixpoint forEachLine (clock : nat -> Z) (index : nat) (lines : list jsstring)
    (newKnights : list Knight.t) (invalidLines : nat) : list Knight.t * nat :=
  match lines with
  | [] => (newKnights, invalidLines)
  | line :: rest =>
      match importLine (clock index) index line with
      | Some k => forEachLine clock (S index) rest (newKnights ++ [k]) invalidLines
      | None => forEachLine clock (S index) rest newKnights (S invalidLines)
      end
  end.

(** [handleImportKnights] *)
Definition handleImportKnights (clock : nat -> Z) (data : jsstring) (s : AppState)
    : AppState * option Alert :=
  if negb (truthy (trim data)) then (s, Some AlertNoData)
  else
    let lines := split LF (trim data) in
    let '(newKnights, invalidLines) := forEachLine clock 0 lines [] 0%nat in
    let s1 :=
      match newKnights with
      | [] => s
      | _ => setKnights (knights s ++ newKnights) s
      end in
    (setIsImportModalOpen false s1,
     Some (AlertImported (length newKnights) invalidLines)).

(* ================================================================== *)
(** ** Commands of the operator *)
(* ================================================================== *)

(** One command is one event of the interface, run by its handler.  The edit
    and delete dialogs cover the page while they are open, so opening one on
    an item of the list and confirming it is one command: [CmdUpdateKnight k]
    stores [k] in [itemToEdit] and submits the form, [CmdDelete] stores the
    target in [itemToDelete] and confirms. *)
Inductive Command :=
| CmdAddKnight (now : Z) (data : FormData.t)
| CmdAddClient (now : Z) (data : FormData.t)
| CmdUpdateKnight (k : Knight.t) (data : FormData.t)
| CmdUpdateClient (c : Client.t) (data : FormData.t)
| CmdDelete (type : ItemType) (id : Z)
| CmdToggleSelection (id : Z) (type : ItemType)
| CmdCreateParty
| CmdCompleteMission (partyId : Z)
| CmdToggleKnightStatus (knightId : Z)
| CmdExportKnights
| CmdImportKnights (clock : nat -> Z) (data : jsstring).

Definition run (c : Command) (s : AppState) : AppState :=
  match c with
  | CmdAddKnight now data => handleAddKnight now data s
  | CmdAddClient now data => handleAddClient now data s
  | CmdUpdateKnight k data => handleUpdateItem data (setItemToEdit (Some (inl k)) s)
  | CmdUpdateClient c data => handleUpdateItem data (setItemToEdit (Some (inr c)) s)
  | CmdDelete type id => handleDelete (setItemToDelete (Some (type, id)) s)
  | CmdToggleSelection id type => toggleSelection id type s
  | CmdCreateParty => fst (handleCreateParty s)
  | CmdCompleteMission partyId => handleCompleteMission partyId s
  | CmdToggleKnightStatus knightId => handleToggleKnightStatus knightId s
  | CmdExportKnights => handleExportKnights s
  | CmdImportKnights clock data => fst (handleImportKnights clock data s)
  end.

Fixpoint runAll (cs : list Command) (s : AppState) : AppState :=
  match cs with
  | [] => s
  | c :: cs' => runAll cs' (run c s)
  end.

(** The identifiers of the knights (clients) a party's snapshot lists. *)
Definition knightIdsOf (p : Party.t) : list Z := map Knight.id (Party.knights p).
Definition clientIdsOf (p : Party.t) : list Z := map Client.id (Party.clients p).

(** The live parties whose snapshot lists identifier [id]; [members] is
    [knightIdsOf] or [clientIdsOf]. *)
Definition partiesOf (members : Party.t -> list Z) (id : Z) (ps : list Party.t)
    : list Party.t :=
  filter (fun p => includes (members p) id) ps.

(** Identifiers a new knight (client) must differ from for the identifier
    to be unique: those in the collection and those in live snapshots. *)
Definition knightIdsInUse (s : AppState) : list Z :=
  map Knight.id (knights s) ++ flat_map knightIdsOf (parties s).
Definition clientIdsInUse (s : AppState) : list Z :=
  map Client.id (clients s) ++ flat_map clientIdsOf (parties s).

(** The knights an import of [data] creates. *)
Definition importedKnights (clock : nat -> Z) (data : jsstring) : list Knight.t :=
  fst (forEachLine clock 0 (split LF (trim data)) [] 0%nat).

(** When a command can be issued.  Identifiers come from the clock and are
    never reused (data model); the edit dialog opens on an item of the
    list.  Every other command is accepted in every state. *)
Definition enabled (c : Command) (s : AppState) : Prop :=
  match c with
  | CmdAddKnight now _ => ~ In now (knightIdsInUse s)
  | CmdAddClient now _ => ~ In now (clientIdsInUse s)
  | CmdUpdateKnight k _ => In k (knights s)
  | CmdUpdateClient c _ => In c (clients s)
  | CmdImportKnights clock data =>
      let ids := map Knight.id (importedKnights clock data) in
      NoDup ids /\ forall i, In i ids -> ~ In i (knightIdsInUse s)
  | _ => True
  end.

Inductive reachable : AppState -> Prop :=
| reachable_init : reachable initialState
| reachable_step (s : AppState) (c : Command) :
    reachable s -> enabled c s -> reachable (run c s).


(** How many live parties list identifier [id]. *)
Definition listedIn (members : Party.t -> list Z) (id : Z) (ps : list Party.t) : nat :=
  List.length (partiesOf members id ps).

(** What the handlers keep true of one collection [xs] with its selection
    [sel] and the live parties [ps]: identifiers are unique in the
    collection, no identifier is listed by two parties, an entity is in-party
    exactly when one party lists it, and every selected entity of the
    collection is [selectable]. *)
Definition coherent {A : Type} (getId : A -> Z) (inParty selectable : A -> bool)
    (members : Party.t -> list Z)
    (xs : list A) (sel : list Z) (ps : list Party.t) : Prop :=
  NoDup (map getId xs)
  /\ (forall id, (listedIn members id ps <= 1)%nat)
  /\ (forall x, In x xs -> (inParty x = true <-> listedIn members (getId x) ps = 1%nat))
  /\ (forall x, In x xs -> In (getId x) sel -> selectable x = true).

Definition knightInParty (k : Knight.t) : bool :=
  KnightStatus_eqb (Knight.status k) KInParty.
Definition clientInParty (c : Client.t) : bool :=
  ClientStatus_eqb (Client.status c) CInParty.

(** The status a selected entity can have: a knight is selected while
    waiting and may go off duty afterwards; a client stays waiting. *)
Definition knightSelectable (k : Knight.t) : bool := negb (knightInParty k).
Definition clientSelectable (c : Client.t) : bool :=
  ClientStatus_eqb (Client.status c) CWaiting.

(** The invariant of the reachable states. *)
Definition stateInvariant (s : AppState) : Prop :=
  coherent Knight.id knightInParty knightSelectable knightIdsOf
    (knights s) (selectedKnightIds s) (parties s)
  /\ coherent Client.id clientInParty clientSelectable clientIdsOf
    (clients s) (selectedClientIds s) (parties s)
  /\ NoDup (map Party.id (parties s))
  /\ (forall p, In p (parties s) -> Party.id p < partyIdCounter s).

(** The status edges of the knight and client life cycles. *)
Definition knightEdge (a b : KnightStatus) : bool :=
  match a, b with
  | KWaiting, KOffDuty | KOffDuty, KWaiting
  | KWaiting, KInParty | KInParty, KWaiting => true
  | _, _ => false
  end.

Definition clientEdge (a b : ClientStatus) : bool :=
  match a, b with
  | CWaiting, CInParty | CInParty, CCompleted => true
  | _, _ => false
  end.

(** The status of the knight (client) with identifier [id], if listed. *)
Definition knightStatusOf (id : Z) (s : AppState) : option KnightStatus :=
  option_map Knight.status (find (fun k => Knight.id k =? id) (knights s)).

(** The change of status, from [a] to [b], that a command may make to a
    knight that stays in the collection. *)
Definition knightStepAllowed (c : Command) (a b : KnightStatus) : Prop :=
  match c with
  | CmdToggleKnightStatus _ =>
      a = b \/ (a = KWaiting /\ b = KOffDuty) \/ (a = KOffDuty /\ b = KWaiting)
  | CmdCreateParty =>
      a = b \/ (a = KWaiting /\ b = KInParty) \/ (a = KOffDuty /\ b = KInParty)
  | CmdCompleteMission _ => a = b \/ (a = KInParty /\ b = KWaiting)
  | _ => a = b
  end.

(** The same for a client. *)
Definition clientStepAllowed (c : Command) (a b : ClientStatus) : Prop :=
  match c with
  | CmdCreateParty => a = b \/ (a = CWaiting /\ b = CInParty)
  | CmdCompleteMission _ => a = b \/ (a = CInParty /\ b = CCompleted)
  | _ => a = b
  end.

(* ================================================================== *)
(** ** Sample data *)
(* ================================================================== *)

Definition formHong : FormData.t :=
  FormData.mk (lit "Hong") (lit "Rogue") 50 [].
Definition formKim : FormData.t :=
  FormData.mk (lit "Kim") (lit "Mage") 30 (lit "urgent").

(** Hong and Kim added and both selected. *)
Definition stateSelected : AppState :=
  runAll [CmdAddKnight 1 formHong; CmdAddClient 2 formKim;
          CmdToggleSelection 1 TKnight; CmdToggleSelection 2 TClient]
    initialState.

(** Party 1 formed from Hong and Kim. *)
Definition stateParty : AppState := run CmdCreateParty stateSelected.

(** Hong and Kim as stored when added, and the party that snapshots them. *)
Definition knightHong : Knight.t :=
  Knight.mk 1 (lit "Hong") (lit "Rogue") 50000 0 KWaiting.
Definition clientKim : Client.t :=
  Client.mk 2 (lit "Kim") (lit "Mage") 30000 (lit "urgent") CWaiting.

(** Hong goes off duty while selected. *)
Definition stateOffDutySelected : AppState :=
  run (CmdToggleKnightStatus 1) stateSelected.

(** Hong is deleted while selected. *)
Definition stateDeletedSelected : AppState :=
  run (CmdDelete TKnight 1) stateSelected.

(** Kim is deleted while selected. *)
Definition stateDeletedClientSelected : AppState :=
  run (CmdDelete TClient 2) stateSelected.

(** A name or job the text format carries unchanged: not empty, no white
    space at either end, no colon and no line feed inside. *)
Definition cleanField (f : jsstring) : Prop :=
  f <> [] /\ trim f = f /\ ~ In COLON f /\ ~ In LF f.

(** An integer that a template literal prints in plain decimal. *)
Definition plainDecimal (n : Z) : Prop := Z.abs n < 10 ^ 21.

Definition exportable (k : Knight.t) : Prop :=
  cleanField (Knight.name k) /\ cleanField (Knight.job k)
  /\ plainDecimal (Knight.power k) /\ plainDecimal (Knight.relayCount k).

(** The knights an import makes of the knights [ks], read from line [index]
    on: same name, job, power and relayCount, a new id, status off-duty. *)
Fixpoint reimported (clock : nat -> Z) (index : nat) (ks : list Knight.t)
    : list Knight.t :=
  match ks with
  | [] => []
  | k :: ks' =>
      Knight.mk (clock index + Z.of_nat index) (Knight.name k) (Knight.job k)
        (Knight.power k) (Knight.relayCount k) KOffDuty
      :: reimported clock (S index) ks'
  end.

(** A knight whose name ends in a space, and the clock stopped at 100. *)
Definition knightPadded : Knight.t :=
  Knight.mk 1 (lit "Hong ") (lit "Rogue") 50000 0 KWaiting.
Definition clockAt100 : nat -> Z := fun _ => 100.

(** Two lines; the name of the second is one space. *)
Definition blankNameData : jsstring :=
  lit "A:B:1:2" ++ [LF] ++ lit " :B:1:2".

(** Every command of a list is enabled when its turn comes. *)
Fixpoint enabledAll (cs : list Command) (s : AppState) : Prop :=
  match cs with
  | [] => True
  | c :: cs' => enabled c s /\ enabledAll cs' (run c s)
  end.

(* ================================================================== *)
(** ** Views computed at render, and the edit dialog *)
(* ================================================================== *)





(** [a.findIndex(f)]: the index of the first element that satisfies [f],
    or -1; [index] is the position of the head of [l]. *)
Fixpoint findIndexFrom {A} (f : A -> bool) (index : Z) (l : list A) : Z :=
  match l with
  | [] => -1
  | x :: l' => if f x then index else findIndexFrom f (index + 1) l'
  end.

Definition findIndex {A} (f : A -> bool) (l : list A) : Z := findIndexFrom f 0 l.

(** [firstOffDutyIndex], the memo over [sortedKnights]. *)
Definition firstOffDutyIndex (ks : list Knight.t) : Z :=
  findIndex (fun k => KnightStatus_eqb (Knight.status k) KOffDuty) (sortedKnights ks).

(** Whether the knight list draws the off-duty separator above the card at
    position [index]: [index === firstOffDutyIndex && firstOffDutyIndex > 0]. *)
Definition separatorAt (ks : list Knight.t) (index : Z) : bool :=
  (index =? firstOffDutyIndex ks) && (firstOffDutyIndex ks >? 0).

(** The form data [EditModal] starts from: [power] is [item.power / 1000].
    The quotient is the integer written here when the stored power is a
    multiple of 1000, which is what the add and edit forms store; for other
    powers the form holds a fraction, which this model of numbers leaves
    out.  A knight has no notes: the form starts with the empty string. *)
Definition editFormData (item : Knight.t + Client.t) : FormData.t :=
  match item with
  | inl k => FormData.mk (Knight.name k) (Knight.job k) (Knight.power k / 1000) []
  | inr c =>
      FormData.mk (Client.name c) (Client.job c) (Client.power c / 1000)
        (Client.notes c)
  end.


(** Two knights off duty between one waiting and one in party. *)
Definition rosterMixed : list Knight.t :=
  [Knight.mk 1 (lit "A") (lit "x") 1000 0 KOffDuty;
   Knight.mk 2 (lit "B") (lit "x") 2000 0 KWaiting;
   Knight.mk 3 (lit "C") (lit "x") 3000 0 KOffDuty;
   Knight.mk 4 (lit "D") (lit "x") 4000 0 KInParty].

(* ================================================================== *)
(** ** List facts shared by the proofs *)
(* ================================================================== *)

Section ListFacts.
Context {A : Type}.
Variable getId : A -> Z.

Lemma includes_In (ids : list Z) (id : Z) : includes ids id = true <-> In id ids.
Proof.
  unfold includes. rewrite existsb_exists. split.
  - intros [x [Hin Heq]]. apply Z.eqb_eq in Heq. now subst.
  - intros Hin. exists id. split; [assumption | apply Z.eqb_refl].
Qed.

Lemma includes_false (ids : list Z) (id : Z) : includes ids id = false <-> ~ In id ids.
Proof.
  rewrite <- includes_In. destruct (includes ids id); split; intros; congruence.
Qed.

Lemma find_id_In (l : list A) (id : Z) (x : A) :
  find (fun y => getId y =? id) l = Some x -> In x l /\ getId x = id.
Proof.
  intros H. apply find_some in H. destruct H as [Hin Heq].
  apply Z.eqb_eq in Heq. now split.
Qed.

Lemma find_id_None (l : list A) (id : Z) :
  find (fun y => getId y =? id) l = None <-> ~ In id (map getId l).
Proof.
  induction l as [|y l IH]; simpl.
  - tauto.
  - destruct (Z.eqb_spec (getId y) id) as [E|E].
    + split; [discriminate | intros H; exfalso; apply H; now left].
    + rewrite IH. tauto.
Qed.

Lemma NoDup_ids_eq (l : list A) (x y : A) :
  NoDup (map getId l) -> In x l -> In y l -> getId x = getId y -> x = y.
Proof.
  induction l as [|z l IH]; simpl; [tauto|].
  intros Hnd Hx Hy Heq. inversion Hnd as [|? ? Hnotin Hnd']; subst.
  destruct Hx as [Hx|Hx], Hy as [Hy|Hy]; subst.
  - reflexivity.
  - exfalso. apply Hnotin. rewrite Heq. now apply in_map.
  - exfalso. apply Hnotin. rewrite <- Heq. now apply in_map.
  - now apply IH.
Qed.

Lemma find_id_unique (l : list A) (x : A) :
  NoDup (map getId l) -> In x l -> find (fun y => getId y =? getId x) l = Some x.
Proof.
  intros Hnd Hin.
  destruct (find (fun y => getId y =? getId x) l) as [y|] eqn:E.
  - apply find_id_In in E. destruct E as [Hy Heq].
    f_equal. now apply (NoDup_ids_eq l).
  - apply find_id_None in E. exfalso. apply E. now apply in_map.
Qed.

Lemma find_removed (l : list A) (id : Z) :
  find (fun y => getId y =? id) (filter (fun y => negb (getId y =? id)) l) = None.
Proof.
  apply find_id_None. rewrite in_map_iff. intros [y [Heq Hin]].
  apply filter_In in Hin. destruct Hin as [_ Hneg].
  apply Z.eqb_eq in Heq. rewrite Heq in Hneg. discriminate.
Qed.





End ListFacts.

(* ================================================================== *)
(** ** Forming a party *)
(* ================================================================== *)

(** C1.  [handleCreateParty] is all-or-nothing.  With an empty selection on
    either side it raises the validation alert and returns the state as it
    was.  Otherwise it raises no alert, appends exactly one party whose id is
    the current counter and whose snapshots are the selected knights and
    clients of the collections, adds one to the counter, gives status
    in-party to every knight and client of the collections whose id is
    selected (and changes no other), and empties both selections. *)
Theorem handleCreateParty_all_or_nothing (s : AppState) :
  (selectedKnightIds s = [] \/ selectedClientIds s = [] ->
   handleCreateParty s = (s, Some AlertSelectBoth))
  /\
  (selectedKnightIds s <> [] -> selectedClientIds s <> [] ->
   let s' := fst (handleCreateParty s) in
   snd (handleCreateParty s) = None
   /\ parties s' =
        parties s ++
        [Party.mk (partyIdCounter s)
           (filter (fun k => includes (selectedKnightIds s) (Knight.id k)) (knights s))
           (filter (fun c => includes (selectedClientIds s) (Client.id c)) (clients s))
           false]
   /\ partyIdCounter s' = partyIdCounter s + 1
   /\ knights s' =
        map (fun k => if includes (selectedKnightIds s) (Knight.id k)
                      then Knight.withStatus k KInParty else k) (knights s)
   /\ clients s' =
        map (fun c => if includes (selectedClientIds s) (Client.id c)
                      then Client.withStatus c CInParty else c) (clients s)
   /\ (forall k, In k (knights s') -> In (Knight.id k) (selectedKnightIds s) ->
       Knight.status k = KInParty)
   /\ (forall c, In c (clients s') -> In (Client.id c) (selectedClientIds s) ->
       Client.status c = CInParty)
   /\ selectedKnightIds s' = [] /\ selectedClientIds s' = []).
Proof.
  split.
  - intros [H|H]; unfold handleCreateParty; rewrite H; [reflexivity|].
    now destruct (selectedKnightIds s).
  - intros Hk Hc. unfold handleCreateParty.
    destruct (selectedKnightIds s) as [|ik sk] eqn:Ek; [congruence|].
    destruct (selectedClientIds s) as [|ic sc] eqn:Ec; [congruence|].
    cbn [fst snd]. repeat split; try reflexivity.
    + intros k Hin Hsel. cbn -[includes] in Hin. apply in_map_iff in Hin.
      destruct Hin as [k0 [Heq Hin]].
      destruct (includes (ik :: sk) (Knight.id k0)) eqn:E.
      * now subst k.
      * subst k. apply includes_false in E. contradiction.
    + intros c Hin Hsel. cbn -[includes] in Hin. apply in_map_iff in Hin.
      destruct Hin as [c0 [Heq Hin]].
      destruct (includes (ic :: sc) (Client.id c0)) eqn:E.
      * now subst c.
      * subst c. apply includes_false in E. contradiction.
Qed.

(** C1, at the state where Hong and Kim are selected: both selections are
    non-empty there, and the counter moves from 1 to 2. *)
Lemma handleCreateParty_all_or_nothing_witness :
  selectedKnightIds stateSelected <> [] /\ selectedClientIds stateSelected <> []
  /\ partyIdCounter (fst (handleCreateParty stateSelected))
     = partyIdCounter stateSelected + 1.
Proof.
  assert (Hk : selectedKnightIds stateSelected <> []) by (vm_compute; discriminate).
  assert (Hc : selectedClientIds stateSelected <> []) by (vm_compute; discriminate).
  destruct (handleCreateParty_all_or_nothing stateSelected) as [_ H].
  destruct (H Hk Hc) as (_ & _ & Hcnt & _).
  split; [exact Hk | split; [exact Hc | exact Hcnt]].
Defined.

(* ================================================================== *)
(** ** Completing a mission *)
(* ================================================================== *)

Lemma handleCompleteMission_found (partyId : Z) (s : AppState) (p : Party.t) :
  find (fun q => Party.id q =? partyId) (parties s) = Some p ->
  handleCompleteMission partyId s =
  mkState
    (map (fun k =>
            if includes (knightIdsOf p) (Knight.id k)
            then Knight.mk (Knight.id k) (Knight.name k) (Knight.job k)
                   (Knight.power k) (Knight.relayCount k + 1) KWaiting
            else k) (knights s))
    (map (fun c =>
            if includes (clientIdsOf p) (Client.id c)
            then Client.withStatus c CCompleted else c) (clients s))
    (filter (fun q => negb (Party.id q =? partyId)) (parties s))
    (selectedKnightIds s) (selectedClientIds s) (partyIdCounter s)
    (itemToDelete s) (itemToEdit s) (isExportModalOpen s)
    (isImportModalOpen s) (exportedKnightData s).
Proof.
  intros H. unfold handleCompleteMission. rewrite H. reflexivity.
Qed.

Lemma handleCompleteMission_missing (partyId : Z) (s : AppState) :
  find (fun q => Party.id q =? partyId) (parties s) = None ->
  handleCompleteMission partyId s = s.
Proof.
  intros H. unfold handleCompleteMission. now rewrite H.
Qed.



(** C6.  Completing the same party id twice in succession: the second call
    finds no party with that id and returns the state of the first call, so
    no [relayCount] is incremented a second time. *)
Theorem handleCompleteMission_twice (partyId : Z) (s : AppState) :
  handleCompleteMission partyId (handleCompleteMission partyId s)
  = handleCompleteMission partyId s.
Proof.
  destruct (find (fun q => Party.id q =? partyId) (parties s)) as [p|] eqn:E.
  - rewrite (handleCompleteMission_found _ _ _ E).
    apply handleCompleteMission_missing. cbn [parties].
    apply find_removed.
  - rewrite (handleCompleteMission_missing _ _ E).
    now apply handleCompleteMission_missing.
Qed.

(* ================================================================== *)
(** ** Reachable states *)
(* ================================================================== *)

Lemma reachable_runAll (cs : list Command) (s : AppState) :
  reachable s -> enabledAll cs s -> reachable (runAll cs s).
Proof.
  revert s. induction cs as [|c cs IH]; simpl; intros s Hs Hen; [assumption|].
  destruct Hen as [Hc Hcs]. apply IH; [|assumption].
  now apply reachable_step.
Qed.

Lemma reachable_stateSelected : reachable stateSelected.
Proof.
  apply reachable_runAll; [apply reachable_init|].
  vm_compute. repeat split; tauto.
Qed.

Lemma reachable_stateParty : reachable stateParty.
Proof.
  apply reachable_step; [apply reachable_stateSelected | exact I].
Qed.

Lemma reachable_stateOffDutySelected : reachable stateOffDutySelected.
Proof.
  apply reachable_step; [apply reachable_stateSelected | exact I].
Qed.

Lemma reachable_stateDeletedSelected : reachable stateDeletedSelected.
Proof.
  apply reachable_step; [apply reachable_stateSelected | exact I].
Qed.

Lemma reachable_stateDeletedClientSelected : reachable stateDeletedClientSelected.
Proof.
  apply reachable_step; [apply reachable_stateSelected | exact I].
Qed.

(* ================================================================== *)
(** ** Selection *)
(* ================================================================== *)

Lemma toggleId_In (id : Z) (prev : list Z) (x : Z) :
  In x (toggleId id prev) <-> (x = id /\ ~ In id prev) \/ (x <> id /\ In x prev).
Proof.
  unfold toggleId. destruct (includes prev id) eqn:E.
  - apply includes_In in E. rewrite filter_In. split.
    + intros [Hin Hne]. right. split; [|assumption].
      intros ->. rewrite Z.eqb_refl in Hne. discriminate.
    + intros [[-> Hn]|[Hne Hin]]; [contradiction|]. split; [assumption|].
      now destruct (Z.eqb_spec x id).
  - apply includes_false in E. rewrite in_app_iff. simpl. split.
    + intros [Hin|[<-|[]]]; [|now left]. right. split; [|assumption].
      intros ->. contradiction.
    + intros [[-> _]|[_ Hin]]; [right; now left | now left].
Qed.

(** C9.  In a state whose identifiers are unique within each collection (the
    data model's unique identifier), [toggleSelection] on the id of a knight
    of the collection that is in-party or off-duty, or of a client of the
    collection that is in-party or completed, returns the state as it was:
    neither selection changes, and nothing else does. *)
Theorem toggleSelection_not_waiting (s : AppState) :
  (forall k, In k (knights s) -> NoDup (map Knight.id (knights s)) ->
   Knight.status k <> KWaiting ->
   toggleSelection (Knight.id k) TKnight s = s)
  /\
  (forall c, In c (clients s) -> NoDup (map Client.id (clients s)) ->
   Client.status c <> CWaiting ->
   toggleSelection (Client.id c) TClient s = s).
Proof.
  split.
  - intros k Hin Hnd Hst. unfold toggleSelection.
    rewrite (find_id_unique Knight.id _ k Hnd Hin).
    destruct (Knight.status k); [congruence | reflexivity | reflexivity].
  - intros c Hin Hnd Hst. unfold toggleSelection.
    rewrite (find_id_unique Client.id _ c Hnd Hin).
    destruct (Client.status c); [congruence | reflexivity | reflexivity].
Qed.

(** C9, on Hong while in party 1. *)
Lemma toggleSelection_not_waiting_witness :
  In (Knight.withStatus knightHong KInParty) (knights stateParty)
  /\ NoDup (map Knight.id (knights stateParty))
  /\ Knight.status (Knight.withStatus knightHong KInParty) <> KWaiting
  /\ toggleSelection 1 TKnight stateParty = stateParty.
Proof.
  assert (Hin : In (Knight.withStatus knightHong KInParty) (knights stateParty))
    by (vm_compute; now left).
  assert (Hnd : NoDup (map Knight.id (knights stateParty))).
  { vm_compute. constructor; [intros []|constructor]. }
  assert (Hst : Knight.status (Knight.withStatus knightHong KInParty) <> KWaiting)
    by discriminate.
  destruct (toggleSelection_not_waiting stateParty) as [H _].
  split; [exact Hin | split; [exact Hnd | split; [exact Hst|]]].
  exact (H _ Hin Hnd Hst).
Defined.

(** C10.  The selections are not kept in step with the collections.
    Deleting a knight or a client leaves both selections as they were, so a
    selected id stays selected once its entity is gone.  [toggleSelection]
    with an id that no entity of the collection has toggles that id in the
    selection all the same.  [handleCreateParty] snapshots the entities of
    the collection whose id is selected, hence only those that still exist:
    in the reachable state where Hong was deleted while selected (and in the
    one where Kim was) both selections are non-empty and the party created
    has an empty knight (client) snapshot. *)
Theorem selection_outlives_entity :
  (forall s type id,
     selectedKnightIds (run (CmdDelete type id) s) = selectedKnightIds s
     /\ selectedClientIds (run (CmdDelete type id) s) = selectedClientIds s)
  /\ (forall s id, ~ In id (map Knight.id (knights s)) ->
      toggleSelection id TKnight s
      = setSelectedKnightIds (toggleId id (selectedKnightIds s)) s)
  /\ (forall s id, ~ In id (map Client.id (clients s)) ->
      toggleSelection id TClient s
      = setSelectedClientIds (toggleId id (selectedClientIds s)) s)
  /\ (forall id prev, In id (toggleId id prev) <-> ~ In id prev)
  /\ (reachable stateDeletedSelected
      /\ selectedKnightIds stateDeletedSelected = [1]
      /\ selectedClientIds stateDeletedSelected = [2]
      /\ knights stateDeletedSelected = []
      /\ parties (fst (handleCreateParty stateDeletedSelected))
         = [Party.mk 1 [] [clientKim] false])
  /\ (reachable stateDeletedClientSelected
      /\ selectedKnightIds stateDeletedClientSelected = [1]
      /\ selectedClientIds stateDeletedClientSelected = [2]
      /\ clients stateDeletedClientSelected = []
      /\ parties (fst (handleCreateParty stateDeletedClientSelected))
         = [Party.mk 1 [knightHong] [] false]).
Proof.
  split; [|split; [|split; [|split; [|split]]]].
  - intros s [] id; split; reflexivity.
  - intros s id H. unfold toggleSelection.
    now rewrite (proj2 (find_id_None Knight.id _ _) H).
  - intros s id H. unfold toggleSelection.
    now rewrite (proj2 (find_id_None Client.id _ _) H).
  - intros id prev. rewrite toggleId_In. tauto.
  - split; [apply reachable_stateDeletedSelected|]. now vm_compute.
  - split; [apply reachable_stateDeletedClientSelected|]. now vm_compute.
Qed.

(* ================================================================== *)
(** ** Sorting by rank *)
(* ================================================================== *)

Section SortByRank.
Context {A : Type}.
Variable rank : A -> Z.

Local Abbreviation compare := (fun a b : A => rank a - rank b).
Local Abbreviation rankLe := (fun a b : A => rank a <= rank b).

Lemma insertBy_perm (x : A) (l : list A) : Permutation (x :: l) (insertBy compare x l).
Proof.
  induction l as [|y l IH]; simpl; [reflexivity|].
  destruct (compare x y <=? 0); [reflexivity|].
  rewrite perm_swap. now constructor.
Qed.

Lemma sortBy_perm (l : list A) : Permutation l (sortBy compare l).
Proof.
  induction l as [|x l IH]; simpl; [constructor|].
  rewrite <- insertBy_perm. now constructor.
Qed.

Lemma insertBy_sorted (x : A) (l : list A) :
  StronglySorted rankLe l -> StronglySorted rankLe (insertBy compare x l).
Proof.
  induction 1 as [|y l Hs IH Hall]; simpl.
  - constructor; constructor.
  - destruct (Z.leb_spec (rank x - rank y) 0) as [Hle|Hgt].
    + constructor; [now constructor|].
      constructor; [lia|].
      eapply Forall_impl; [|exact Hall]. cbv beta. intros z Hz. lia.
    + constructor; [assumption|].
      eapply Permutation_Forall; [apply insertBy_perm|].
      constructor; [lia | assumption].
Qed.

Lemma sortBy_sorted (l : list A) : StronglySorted rankLe (sortBy compare l).
Proof.
  induction l as [|x l IH]; simpl; [constructor|]. now apply insertBy_sorted.
Qed.

(** Stability: the elements of one rank keep their order. *)
Lemma insertBy_filter_rank (r : Z) (x : A) (l : list A) :
  filter (fun y => rank y =? r) (insertBy compare x l)
  = if rank x =? r then x :: filter (fun y => rank y =? r) l
    else filter (fun y => rank y =? r) l.
Proof.
  induction l as [|y l IH]; simpl; [reflexivity|].
  destruct (Z.leb_spec (rank x - rank y) 0) as [Hle|Hgt]; simpl; [reflexivity|].
  rewrite IH.
  destruct (Z.eqb_spec (rank x) r), (Z.eqb_spec (rank y) r); try reflexivity. lia.
Qed.

Lemma sortBy_filter_rank (r : Z) (l : list A) :
  filter (fun y => rank y =? r) (sortBy compare l) = filter (fun y => rank y =? r) l.
Proof.
  induction l as [|x l IH]; simpl; [reflexivity|].
  rewrite insertBy_filter_rank, IH. reflexivity.
Qed.

Lemma filter_rank_nil (r : Z) (l : list A) :
  Forall (fun y => rank y <> r) l -> filter (fun y => rank y =? r) l = [].
Proof.
  induction 1 as [|y l Hy _ IH]; simpl; [reflexivity|].
  now destruct (Z.eqb_spec (rank y) r).
Qed.

(** A list sorted by a rank that takes the values 1, 2 and 3 is its rank-1
    elements, then its rank-2 elements, then its rank-3 elements. *)
Lemma sorted_three_groups (l : list A) :
  Forall (fun y => rank y = 1 \/ rank y = 2 \/ rank y = 3) l ->
  StronglySorted rankLe l ->
  l = filter (fun y => rank y =? 1) l ++ filter (fun y => rank y =? 2) l
      ++ filter (fun y => rank y =? 3) l.
Proof.
  intros Hr Hs. induction Hs as [|x l Hs IH Hall]; [reflexivity|].
  inversion Hr as [|? ? Hx Hr']; subst. specialize (IH Hr').
  cbv beta in Hall. simpl.
  destruct Hx as [Hx|[Hx|Hx]]; rewrite Hx; simpl.
  - now rewrite <- IH.
  - assert (E1 : filter (fun y => rank y =? 1) l = []).
    { apply filter_rank_nil. eapply Forall_impl; [|exact Hall]. cbv beta. intros; lia. }
    rewrite E1 in *. simpl in *. now rewrite <- IH.
  - assert (E1 : filter (fun y => rank y =? 1) l = []).
    { apply filter_rank_nil. eapply Forall_impl; [|exact Hall]. cbv beta. intros; lia. }
    assert (E2 : filter (fun y => rank y =? 2) l = []).
    { apply filter_rank_nil. eapply Forall_impl; [|exact Hall]. cbv beta. intros; lia. }
    rewrite E1, E2 in *. simpl in *. now rewrite <- IH.
Qed.

End SortByRank.

(* ================================================================== *)
(** ** Printing and parsing integers *)
(* ================================================================== *)

Lemma digits_small (n : N) : (n < 10)%N -> digits n = [(48 + n)%N].
Proof.
  intros Hn. rewrite digits_equation_1.
  destruct (inspect (n <? 10)%N) as [[] E]; simpl; [reflexivity|].
  apply N.ltb_ge in E. lia.
Qed.

Lemma digits_big (n : N) :
  (10 <= n)%N -> digits n = digits (n / 10) ++ [(48 + n mod 10)%N].
Proof.
  intros Hn. rewrite digits_equation_1.
  destruct (inspect (n <? 10)%N) as [[] E]; simpl; [|reflexivity].
  apply N.ltb_lt in E. lia.
Qed.

(** The last digit: [digits n] is never empty. *)
Lemma digits_snoc (n : N) : exists ds d, digits n = ds ++ [d] /\ isDigit d = true.
Proof.
  destruct (N.lt_ge_cases n 10) as [Hn|Hn].
  - exists [], (48 + n)%N. rewrite (digits_small n Hn). split; [reflexivity|].
    unfold isDigit. apply andb_true_iff. split; apply N.leb_le; lia.
  - exists (digits (n / 10)), (48 + n mod 10)%N.
    rewrite (digits_big n Hn). split; [reflexivity|].
    pose proof (N.mod_lt n 10 ltac:(lia)) as Hm.
    set (m := (n mod 10)%N) in *. clearbody m.
    unfold isDigit. apply andb_true_iff. split; apply N.leb_le; lia.
Qed.

Lemma digits_all_digits (n : N) : Forall (fun c => isDigit c = true) (digits n).
Proof.
  induction n as [n IH] using (well_founded_induction N.lt_wf_0).
  destruct (N.lt_ge_cases n 10) as [Hn|Hn].
  - rewrite (digits_small n Hn). constructor; [|constructor].
    unfold isDigit. apply andb_true_iff. split; apply N.leb_le; lia.
  - rewrite (digits_big n Hn). apply Forall_app. split.
    + apply IH. apply N.div_lt; lia.
    + constructor; [|constructor].
      pose proof (N.mod_lt n 10 ltac:(lia)) as Hm.
      set (m := (n mod 10)%N) in *. clearbody m.
      unfold isDigit. apply andb_true_iff. split; apply N.leb_le; lia.
Qed.

Lemma digitsValue_snoc (ds : jsstring) (d : codeunit) :
  digitsValue (ds ++ [d]) = (digitsValue ds * 10 + (d - 48))%N.
Proof.
  unfold digitsValue. now rewrite fold_left_app.
Qed.

Lemma digitsValue_digits (n : N) : digitsValue (digits n) = n.
Proof.
  induction n as [n IH] using (well_founded_induction N.lt_wf_0).
  destruct (N.lt_ge_cases n 10) as [Hn|Hn].
  - rewrite (digits_small n Hn). unfold digitsValue. cbn [fold_left]. lia.
  - rewrite (digits_big n Hn), digitsValue_snoc, IH by (apply N.div_lt; lia).
    pose proof (N.div_mod n 10 ltac:(lia)) as Hdm.
    pose proof (N.mod_lt n 10 ltac:(lia)) as Hm.
    set (m := (n mod 10)%N) in *. set (q := (n / 10)%N) in *.
    clearbody m q. lia.
Qed.

Lemma takeWhile_all {A} (f : A -> bool) (l : list A) :
  Forall (fun x => f x = true) l -> takeWhile f l = l.
Proof.
  induction 1 as [|x l Hx _ IH]; simpl; [reflexivity|]. now rewrite Hx, IH.
Qed.

Lemma isDigit_range (c : codeunit) : isDigit c = true -> (48 <= c <= 57)%N.
Proof.
  unfold isDigit. intros H. apply andb_true_iff in H. destruct H as [H1 H2].
  apply N.leb_le in H1. apply N.leb_le in H2. lia.
Qed.

Lemma isDigit_not_space (c : codeunit) : isDigit c = true -> isWhiteSpace c = false.
Proof.
  intros H. apply isDigit_range in H. unfold isWhiteSpace.
  repeat match goal with
         | |- context [(?a <=? ?b)%N] => destruct (N.leb_spec a b)
         | |- context [(?a =? ?b)%N] => destruct (N.eqb_spec a b)
         end; simpl; try reflexivity; lia.
Qed.

(** The first code unit of [digits n] is a digit. *)
Lemma digits_head (n : N) : exists c r, digits n = c :: r /\ isDigit c = true.
Proof.
  pose proof (digits_all_digits n) as Hall.
  destruct (digits_snoc n) as (ds & d & E & _).
  destruct (digits n) as [|c r]; [now destruct ds|].
  exists c, r. split; [reflexivity|]. now inversion Hall.
Qed.

(** Parsing what was printed gives the number back. *)
Lemma parseInt_numberToString (n : Z) : parseInt (numberToString n) = Some n.
Proof.
  unfold numberToString, parseInt, trimStart.
  destruct (Z.ltb_spec n 0) as [Hn|Hn].
  - simpl.
    rewrite (takeWhile_all _ _ (digits_all_digits (Z.abs_N n))).
    destruct (digits_head (Z.abs_N n)) as (c & r & E & _).
    pose proof (digitsValue_digits (Z.abs_N n)) as Hv.
    rewrite E in *. rewrite Hv. f_equal. rewrite N2Z.inj_abs_N. lia.
  - destruct (digits_head (Z.to_N n)) as (c & r & E & Hc).
    pose proof (digitsValue_digits (Z.to_N n)) as Hv.
    pose proof (digits_all_digits (Z.to_N n)) as Hall.
    rewrite E in *. simpl. rewrite (isDigit_not_space c Hc).
    apply isDigit_range in Hc as Hr.
    destruct (N.eqb_spec c MINUS) as [Em|_]; [unfold MINUS in Em; lia|].
    destruct (N.eqb_spec c PLUS) as [Ep|_]; [unfold PLUS in Ep; lia|].
    rewrite (takeWhile_all _ _ Hall). rewrite Hv. f_equal. lia.
Qed.

(* ================================================================== *)
(** ** Display order and export *)
(* ================================================================== *)

Lemma statusOrder_eqb (a b : KnightStatus) :
  (statusOrder a =? statusOrder b) = KnightStatus_eqb a b.
Proof. now destruct a, b. Qed.

Lemma filter_status_rank (st : KnightStatus) (l : list Knight.t) :
  filter (fun k => KnightStatus_eqb (Knight.status k) st) l
  = filter (fun k => statusOrder (Knight.status k) =? statusOrder st) l.
Proof.
  apply filter_ext. intros k. now rewrite statusOrder_eqb.
Qed.


(* ================================================================== *)
(** ** Splitting, joining and trimming *)
(* ================================================================== *)

Lemma split_no_sep (sep : codeunit) (l : jsstring) :
  ~ In sep l -> split sep l = [l].
Proof.
  induction l as [|c l IH]; simpl; [reflexivity|]. intros H.
  destruct (N.eqb_spec c sep) as [E|E]; [exfalso; apply H; now left|].
  rewrite IH; [reflexivity|]. intros Hin. apply H. now right.
Qed.

Lemma split_app_sep (sep : codeunit) (l rest : jsstring) :
  ~ In sep l -> split sep (l ++ sep :: rest) = l :: split sep rest.
Proof.
  induction l as [|c l IH]; simpl; intros H.
  - now rewrite N.eqb_refl.
  - destruct (N.eqb_spec c sep) as [E|E]; [exfalso; apply H; now left|].
    rewrite IH; [reflexivity|]. intros Hin. apply H. now right.
Qed.

Lemma split_join (sep : codeunit) (ls : list jsstring) :
  ls <> [] -> Forall (fun l => ~ In sep l) ls -> split sep (join [sep] ls) = ls.
Proof.
  intros Hne Hall. revert Hne.
  induction Hall as [|l ls Hl Hall IH]; intros Hne; [exfalso; now apply Hne|].
  destruct ls as [|l2 ls].
  - simpl. now apply split_no_sep.
  - change (join [sep] (l :: l2 :: ls)) with (l ++ sep :: join [sep] (l2 :: ls)).
    rewrite split_app_sep by assumption. f_equal. apply IH. discriminate.
Qed.

Lemma join_head {P : codeunit -> Prop} (sep : jsstring) (ls : list jsstring) :
  ls <> [] -> Forall (fun l => exists c r, l = c :: r /\ P c) ls ->
  exists c r, join sep ls = c :: r /\ P c.
Proof.
  intros Hne Hall. destruct Hall as [|l ls (c & r & -> & Hc) _]; [exfalso; now apply Hne|].
  destruct ls as [|l2 ls].
  - now exists c, r.
  - exists c, (r ++ sep ++ join sep (l2 :: ls)). now split.
Qed.

Lemma join_last {P : codeunit -> Prop} (sep : jsstring) (ls : list jsstring) :
  ls <> [] -> Forall (fun l => exists pre d, l = pre ++ [d] /\ P d) ls ->
  exists pre d, join sep ls = pre ++ [d] /\ P d.
Proof.
  intros Hne Hall. revert Hne.
  induction Hall as [|l ls Hl Hall IH]; intros Hne; [exfalso; now apply Hne|].
  destruct ls as [|l2 ls].
  - exact Hl.
  - destruct IH as (pre & d & E & Hd); [discriminate|].
    exists (l ++ sep ++ pre), d. split; [|assumption].
    change (join sep (l :: l2 :: ls)) with (l ++ sep ++ join sep (l2 :: ls)).
    rewrite E. now rewrite <- !app_assoc.
Qed.

Lemma dropWhile_length {A} (f : A -> bool) (l : list A) :
  (List.length (dropWhile f l) <= List.length l)%nat.
Proof.
  induction l as [|x l IH]; simpl; [lia|]. destruct (f x); simpl; lia.
Qed.

Lemma trimEnd_length (s : jsstring) : (List.length (trimEnd s) <= List.length s)%nat.
Proof.
  unfold trimEnd. rewrite length_rev.
  etransitivity; [apply dropWhile_length|]. now rewrite length_rev.
Qed.

Lemma trimEnd_snoc (s : jsstring) (d : codeunit) :
  isWhiteSpace d = false -> trimEnd (s ++ [d]) = s ++ [d].
Proof.
  intros H. unfold trimEnd. rewrite rev_app_distr. simpl. rewrite H.
  simpl. now rewrite rev_involutive.
Qed.

Lemma trim_edges (s r pre : jsstring) (c d : codeunit) :
  s = c :: r -> s = pre ++ [d] ->
  isWhiteSpace c = false -> isWhiteSpace d = false -> trim s = s.
Proof.
  intros Hc Hd Wc Wd. unfold trim, trimStart.
  rewrite Hc at 1. simpl. rewrite Wc, <- Hc, Hd. now apply trimEnd_snoc.
Qed.

(** A non-empty string that [trim] leaves alone starts with a code unit
    that is not white space. *)
Lemma trim_fixed_head (s : jsstring) :
  s <> [] -> trim s = s -> exists c r, s = c :: r /\ isWhiteSpace c = false.
Proof.
  intros Hne Ht. destruct s as [|c r]; [congruence|].
  destruct (isWhiteSpace c) eqn:E; [|now exists c, r].
  exfalso. unfold trim, trimStart in Ht. simpl in Ht. rewrite E in Ht.
  pose proof (trimEnd_length (dropWhile isWhiteSpace r)) as H1.
  pose proof (dropWhile_length isWhiteSpace r) as H2.
  rewrite Ht in H1. simpl in H1. lia.
Qed.

(* ================================================================== *)
(** ** One exported line *)
(* ================================================================== *)

Lemma numberToString_chars (n : Z) :
  Forall (fun c => c = MINUS \/ isDigit c = true) (numberToString n).
Proof.
  unfold numberToString. destruct (n <? 0).
  - constructor; [now left|].
    eapply Forall_impl; [|apply digits_all_digits]. intros c Hc. now right.
  - eapply Forall_impl; [|apply digits_all_digits]. intros c Hc. now right.
Qed.

Lemma numberToString_no (sep : codeunit) (n : Z) :
  sep = COLON \/ sep = LF -> ~ In sep (numberToString n).
Proof.
  intros Hsep Hin.
  pose proof (proj1 (Forall_forall _ _) (numberToString_chars n) sep Hin) as H.
  destruct H as [H|H].
  - unfold COLON, LF, MINUS in *. destruct Hsep; lia.
  - apply isDigit_range in H. unfold COLON, LF in *. destruct Hsep; lia.
Qed.

Lemma numberToString_last (n : Z) :
  exists pre d, numberToString n = pre ++ [d] /\ isWhiteSpace d = false.
Proof.
  unfold numberToString. destruct (n <? 0).
  - destruct (digits_snoc (Z.abs_N n)) as (ds & d & E & Hd).
    exists (MINUS :: ds), d. rewrite E. split; [reflexivity|].
    now apply isDigit_not_space.
  - destruct (digits_snoc (Z.to_N n)) as (ds & d & E & Hd).
    exists ds, d. split; [assumption | now apply isDigit_not_space].
Qed.

Lemma split_exportLine (k : Knight.t) :
  ~ In COLON (Knight.name k) -> ~ In COLON (Knight.job k) ->
  split COLON (exportLine k)
  = [Knight.name k; Knight.job k; numberToString (Knight.power k);
     numberToString (Knight.relayCount k)].
Proof.
  intros Hn Hj. unfold exportLine. simpl.
  rewrite split_app_sep by assumption.
  rewrite split_app_sep by assumption.
  rewrite split_app_sep by (apply numberToString_no; now left).
  rewrite split_no_sep by (apply numberToString_no; now left).
  reflexivity.
Qed.

Lemma exportLine_no_LF (k : Knight.t) :
  ~ In LF (Knight.name k) -> ~ In LF (Knight.job k) -> ~ In LF (exportLine k).
Proof.
  intros Hn Hj. unfold exportLine. rewrite !in_app_iff. simpl.
  pose proof (numberToString_no LF (Knight.power k) (or_intror eq_refl)).
  pose proof (numberToString_no LF (Knight.relayCount k) (or_intror eq_refl)).
  unfold COLON, LF in *. intuition lia.
Qed.

Lemma truthy_cons (s : jsstring) : s <> [] -> truthy s = true.
Proof. destruct s; simpl; congruence. Qed.

Lemma importLine_exportLine (now : Z) (index : nat) (k : Knight.t) :
  exportable k ->
  importLine now index (exportLine k)
  = Some (Knight.mk (now + Z.of_nat index) (Knight.name k) (Knight.job k)
            (Knight.power k) (Knight.relayCount k) KOffDuty).
Proof.
  intros ((Hn1 & Hn2 & Hn3 & _) & (Hj1 & Hj2 & Hj3 & _) & _).
  unfold importLine. rewrite split_exportLine by assumption.
  rewrite !parseInt_numberToString.
  rewrite (truthy_cons _ Hn1), (truthy_cons _ Hj1). simpl.
  now rewrite Hn2, Hj2.
Qed.

Lemma forEachLine_exported (clock : nat -> Z) (ks : list Knight.t) :
  Forall exportable ks ->
  forall index newKnights invalidLines,
    forEachLine clock index (map exportLine ks) newKnights invalidLines
    = (newKnights ++ reimported clock index ks, invalidLines).
Proof.
  induction 1 as [|k ks Hk _ IH]; intros index acc n; simpl.
  - now rewrite app_nil_r.
  - rewrite (importLine_exportLine _ _ _ Hk). rewrite IH.
    now rewrite <- app_assoc.
Qed.

Lemma reimported_fields (clock : nat -> Z) (ks : list Knight.t) (index : nat) :
  Forall2 (fun k k' =>
             Knight.name k' = Knight.name k /\ Knight.job k' = Knight.job k
             /\ Knight.power k' = Knight.power k
             /\ Knight.relayCount k' = Knight.relayCount k
             /\ Knight.status k' = KOffDuty)
    ks (reimported clock index ks).
Proof.
  revert index. induction ks as [|k ks IH]; intros index; simpl; constructor.
  - now repeat split.
  - apply IH.
Qed.

Lemma reimported_length (clock : nat -> Z) (index : nat) (ks : list Knight.t) :
  List.length (reimported clock index ks) = List.length ks.
Proof.
  revert index. induction ks as [|k ks IH]; intros index; simpl; [reflexivity|].
  now rewrite IH.
Qed.

Lemma exportKnightRoster_trim (ks : list Knight.t) :
  ks <> [] -> Forall exportable ks ->
  exists c r, join [LF] (map exportLine ks) = c :: r
              /\ trim (join [LF] (map exportLine ks)) = join [LF] (map exportLine ks).
Proof.
  intros Hne Hall.
  assert (Hne' : map exportLine ks <> []) by (destruct ks; simpl; congruence).
  destruct (@join_head (fun c => isWhiteSpace c = false) [LF] (map exportLine ks) Hne')
    as (c & r & E & Hc).
  { apply Forall_map. eapply Forall_impl; [|exact Hall]. cbv beta.
    intros k ((Hn1 & Hn2 & _) & _).
    destruct (trim_fixed_head _ Hn1 Hn2) as (c & r & En & Hc).
    exists c, (r ++ [COLON] ++ Knight.job k ++ [COLON]
               ++ numberToString (Knight.power k) ++ [COLON]
               ++ numberToString (Knight.relayCount k)).
    unfold exportLine. rewrite En. now split. }
  destruct (@join_last (fun d => isWhiteSpace d = false) [LF] (map exportLine ks) Hne')
    as (pre & d & E' & Hd).
  { apply Forall_map. apply Forall_forall. intros k _.
    destruct (numberToString_last (Knight.relayCount k)) as (pre & d & En & Hd).
    exists (Knight.name k ++ [COLON] ++ Knight.job k ++ [COLON]
            ++ numberToString (Knight.power k) ++ [COLON] ++ pre), d.
    unfold exportLine. rewrite En. split; [|assumption].
    now rewrite <- !app_assoc. }
  exists c, r. split; [assumption|].
  now apply (trim_edges _ r pre c d).
Qed.

(* ================================================================== *)
(** ** Export then import *)
(* ================================================================== *)

(** C3, as the code has it.  For every non-empty roster in which every name
    and job is non-empty, has no white space at either end and contains no
    colon and no line feed, and every power and relayCount is an integer
    printed in plain decimal, importing the exported text adds one knight per
    knight of the roster, in display order, with the same name, job, power
    and relayCount, a new id and status off-duty; no line is ignored. *)
Theorem import_export_roundtrip (clock : nat -> Z) (s : AppState) (ks : list Knight.t) :
  ks <> [] -> Forall exportable ks ->
  handleImportKnights clock (exportKnightRoster ks) s
  = (setIsImportModalOpen false
       (setKnights (knights s ++ reimported clock 0 (sortedKnights ks)) s),
     Some (AlertImported (List.length ks) 0))
  /\ Forall2 (fun k k' =>
                Knight.name k' = Knight.name k /\ Knight.job k' = Knight.job k
                /\ Knight.power k' = Knight.power k
                /\ Knight.relayCount k' = Knight.relayCount k
                /\ Knight.status k' = KOffDuty)
       (sortedKnights ks) (reimported clock 0 (sortedKnights ks))
  /\ Permutation ks (sortedKnights ks).
Proof.
  intros Hne Hall.
  assert (Hperm : Permutation ks (sortedKnights ks))
    by apply (sortBy_perm (fun k => statusOrder (Knight.status k))).
  assert (Hall' : Forall exportable (sortedKnights ks))
    by (eapply Permutation_Forall; eassumption).
  assert (Hne' : sortedKnights ks <> []).
  { intros E. rewrite E in Hperm. apply Permutation_sym, Permutation_nil in Hperm.
    congruence. }
  split; [|split; [apply reimported_fields | exact Hperm]].
  destruct (exportKnightRoster_trim _ Hne' Hall') as (c & r & Ec & Et).
  unfold handleImportKnights, exportKnightRoster. rewrite Et. rewrite Ec at 1.
  simpl truthy. simpl negb. cbv iota.
  rewrite split_join.
  - rewrite (forEachLine_exported clock _ Hall'). simpl app.
    assert (Hlen : List.length (reimported clock 0 (sortedKnights ks)) = List.length ks).
    { rewrite (Permutation_length Hperm). apply reimported_length. }
    rewrite Hlen.
    destruct (reimported clock 0 (sortedKnights ks)) eqn:E; [|reflexivity].
    destruct (sortedKnights ks); [congruence | discriminate].
  - destruct (sortedKnights ks); simpl; congruence.
  - apply Forall_map. eapply Forall_impl; [|exact Hall']. cbv beta.
    intros k ((_ & _ & _ & Hn) & (_ & _ & _ & Hj) & _).
    now apply exportLine_no_LF.
Qed.

(** C3 (as the code has it), on the roster that holds Hong alone. *)
Lemma import_export_roundtrip_witness :
  [knightHong] <> [] /\ Forall exportable [knightHong]
  /\ Forall2 (fun k k' =>
                Knight.name k' = Knight.name k /\ Knight.job k' = Knight.job k
                /\ Knight.power k' = Knight.power k
                /\ Knight.relayCount k' = Knight.relayCount k
                /\ Knight.status k' = KOffDuty)
       (sortedKnights [knightHong])
       (reimported clockAt100 0 (sortedKnights [knightHong])).
Proof.
  assert (Hne : [knightHong] <> []) by discriminate.
  assert (Hall : Forall exportable [knightHong]).
  { constructor; [|constructor].
    repeat split; try discriminate; try reflexivity;
      vm_compute; intuition discriminate. }
  destruct (import_export_roundtrip clockAt100 initialState [knightHong] Hne Hall)
    as (_ & H & _).
  split; [exact Hne | split; [exact Hall | exact H]].
Defined.

(** C3 as stated fails: the roster that holds the knight named "Hong " (with
    a space at the end) is not empty and has no colon in a name or job, and
    the knight imported from its export is named "Hong". *)
Lemma roundtrip_trims_padded_name :
  [knightPadded] <> []
  /\ ~ In COLON (Knight.name knightPadded)
  /\ ~ In COLON (Knight.job knightPadded)
  /\ map Knight.name
       (knights (fst (handleImportKnights clockAt100
                        (exportKnightRoster [knightPadded]) initialState)))
     = [lit "Hong"]
  /\ lit "Hong" <> Knight.name knightPadded.
Proof.
  split; [discriminate|].
  split; [vm_compute; intuition discriminate|].
  split; [vm_compute; intuition discriminate|].
  split; [now vm_compute | vm_compute; discriminate].
Qed.

(* ================================================================== *)
(** ** Which lines an import accepts *)
(* ================================================================== *)

(** A line is accepted exactly when it splits on the colon into four fields,
    [parseInt] gives a number for the third and the fourth, and the first
    and the second are not empty; the test on the name and the job is made
    before they are trimmed. *)
Lemma importLine_accepts_iff (now : Z) (index : nat) (line : jsstring) (k : Knight.t) :
  importLine now index line = Some k <->
  exists name job powerStr relayCountStr power relayCount,
    split COLON line = [name; job; powerStr; relayCountStr]
    /\ parseInt powerStr = Some power
    /\ parseInt relayCountStr = Some relayCount
    /\ name <> [] /\ job <> []
    /\ k = Knight.mk (now + Z.of_nat index) (trim name) (trim job)
             power relayCount KOffDuty.
Proof.
  unfold importLine. split.
  - destruct (split COLON line) as [|name [|job [|powerStr [|relayCountStr [|x l]]]]];
      try discriminate.
    destruct (parseInt powerStr) as [power|] eqn:Ep; [|discriminate].
    destruct (parseInt relayCountStr) as [relayCount|] eqn:Er; [|discriminate].
    destruct name as [|c1 name]; [discriminate|].
    destruct job as [|c2 job]; [discriminate|].
    simpl. intros H. injection H as <-.
    exists (c1 :: name), (c2 :: job), powerStr, relayCountStr, power, relayCount.
    repeat split; solve [assumption | discriminate].
  - intros (name & job & powerStr & relayCountStr & power & relayCount
            & -> & -> & -> & Hn & Hj & ->).
    now rewrite (truthy_cons _ Hn), (truthy_cons _ Hj).
Qed.

(** Every line is either imported or counted as ignored, and a bad line
    stops nothing: the lines after it are handled all the same. *)
Lemma forEachLine_counts (clock : nat -> Z) (lines : list jsstring) :
  forall index newKnights invalidLines,
    let r := forEachLine clock index lines newKnights invalidLines in
    (List.length (fst r) + snd r
     = List.length newKnights + invalidLines + List.length lines)%nat.
Proof.
  induction lines as [|line lines IH]; intros index acc n; simpl; [lia|].
  destruct (importLine (clock index) index line) as [k|].
  - specialize (IH (S index) (acc ++ [k]) n). simpl in IH.
    rewrite IH, length_app. simpl. lia.
  - specialize (IH (S index) acc (S n)). simpl in IH. rewrite IH. lia.
Qed.

(** C4 at its failing input.  The second line of [blankNameData] splits into
    four fields, its numbers parse, and its name is one space: empty once
    trimmed.  The line is accepted all the same, and a knight with the empty
    name is created; the import reports two knights added and no line
    ignored. *)
Theorem importLine_accepts_blank_name :
  split LF (trim blankNameData) = [lit "A:B:1:2"; lit " :B:1:2"]
  /\ split COLON (lit " :B:1:2") = [lit " "; lit "B"; lit "1"; lit "2"]
  /\ trim (lit " ") = []
  /\ importLine 100 1 (lit " :B:1:2")
     = Some (Knight.mk 101 [] (lit "B") 1 2 KOffDuty)
  /\ handleImportKnights clockAt100 blankNameData initialState
     = (setKnights [Knight.mk 100 (lit "A") (lit "B") 1 2 KOffDuty;
                    Knight.mk 101 [] (lit "B") 1 2 KOffDuty] initialState,
        Some (AlertImported 2 0)).
Proof.
  repeat split; now vm_compute.
Qed.

(* ================================================================== *)
(** ** Membership of parties: one collection *)
(* ================================================================== *)

Lemma filter_all {A} (f : A -> bool) (l : list A) :
  (forall x, In x l -> f x = true) -> filter f l = l.
Proof.
  induction l as [|x l IH]; simpl; intros H; [reflexivity|].
  rewrite (H x (or_introl eq_refl)). f_equal. apply IH. intros y Hy. apply H. now right.
Qed.

Lemma NoDup_map_filter {A B} (g : A -> B) (f : A -> bool) (l : list A) :
  NoDup (map g l) -> NoDup (map g (filter f l)).
Proof.
  induction l as [|x l IH]; simpl; intros H; [constructor|].
  inversion H as [|? ? Hx Hl]; subst. destruct (f x); simpl; [|now apply IH].
  constructor; [|now apply IH].
  intros Hin. apply Hx. apply in_map_iff in Hin. destruct Hin as [y [E Hy]].
  apply in_map_iff. exists y. split; [assumption|]. now apply filter_In in Hy.
Qed.

Section Membership.
Context {A : Type}.
Variable getId : A -> Z.
Variable inParty : A -> bool.
Variable selectable : A -> bool.
Variable members : Party.t -> list Z.
Hypothesis selectable_out : forall x, selectable x = true -> inParty x = false.

Local Abbreviation listed := (listedIn members).
Local Abbreviation coh := (coherent getId inParty selectable members).

Lemma listedIn_cons (id : Z) (p : Party.t) (ps : list Party.t) :
  listed id (p :: ps)
  = ((if includes (members p) id then 1 else 0) + listed id ps)%nat.
Proof.
  unfold listedIn, partiesOf. simpl. now destruct (includes (members p) id).
Qed.

Lemma listedIn_app (id : Z) (ps qs : list Party.t) :
  listed id (ps ++ qs) = (listed id ps + listed id qs)%nat.
Proof.
  unfold listedIn, partiesOf. now rewrite filter_app, length_app.
Qed.

Lemma listedIn_absent (id : Z) (ps : list Party.t) :
  ~ In id (flat_map members ps) -> listed id ps = 0%nat.
Proof.
  induction ps as [|p ps IH]; [reflexivity|]. simpl. rewrite in_app_iff. intros H.
  rewrite listedIn_cons, IH by tauto.
  assert (E : includes (members p) id = false) by (apply includes_false; tauto).
  now rewrite E.
Qed.

(** Removing the party found by id takes it, and nothing else, out of the
    count. *)
Lemma listedIn_remove (id partyId : Z) (ps : list Party.t) (p0 : Party.t) :
  NoDup (map Party.id ps) ->
  find (fun q => Party.id q =? partyId) ps = Some p0 ->
  listed id ps
  = (listed id (filter (fun q => negb (Party.id q =? partyId)%Z) ps)
     + (if includes (members p0) id then 1 else 0))%nat.
Proof.
  induction ps as [|q ps IH]; simpl; [discriminate|]. intros Hnd Hfind.
  inversion Hnd as [|? ? Hq Hnd']; subst.
  destruct (Z.eqb_spec (Party.id q) partyId) as [E|E]; simpl.
  - injection Hfind as <-. rewrite listedIn_cons.
    rewrite filter_all; [lia|].
    intros r Hr. destruct (Z.eqb_spec (Party.id r) partyId) as [E'|]; [|reflexivity].
    exfalso. apply Hq. rewrite E, <- E'. now apply in_map.
  - rewrite !listedIn_cons, (IH Hnd' Hfind). lia.
Qed.

Lemma coherent_nil : coh [] [] [].
Proof.
  split; [constructor|split; [|split; intros x []]].
  intros i. unfold listedIn. simpl. lia.
Qed.

(** New entities with fresh identifiers, all of them selectable. *)
Lemma coherent_add (xs ys : list A) (sel : list Z) (ps : list Party.t) :
  coh xs sel ps ->
  NoDup (map getId ys) ->
  (forall i, In i (map getId ys) ->
     ~ In i (map getId xs ++ flat_map members ps)) ->
  (forall y, In y ys -> selectable y = true) ->
  coh (xs ++ ys) sel ps.
Proof.
  intros (Hnd & Hle & Hiff & Hsel) Hndy Hfresh Hnew.
  assert (Hout : forall y, In y ys -> inParty y = false)
    by (intros y Hy; apply selectable_out; now apply Hnew).
  split; [|split; [exact Hle|split]].
  - rewrite map_app. apply NoDup_app; [assumption | assumption|].
    intros i Hx Hy. apply (Hfresh i Hy). apply in_app_iff. now left.
  - intros x Hx. apply in_app_iff in Hx. destruct Hx as [Hx|Hx]; [now apply Hiff|].
    rewrite (Hout x Hx), listedIn_absent; [split; discriminate|].
    intros Hin. apply (Hfresh (getId x)); [now apply in_map|].
    apply in_app_iff. now right.
  - intros x Hx Hs. apply in_app_iff in Hx. destruct Hx as [Hx|Hx];
      [now apply Hsel | now apply Hnew].
Qed.

(** A change of the entities that keeps their identifier, whether they are
    in-party and whether they are selectable. *)
Lemma coherent_map (f : A -> A) (xs : list A) (sel : list Z) (ps : list Party.t) :
  coh xs sel ps ->
  (forall x, In x xs ->
     getId (f x) = getId x /\ inParty (f x) = inParty x
     /\ (selectable x = true -> selectable (f x) = true)) ->
  coh (map f xs) sel ps.
Proof.
  intros (Hnd & Hle & Hiff & Hsel) Hf.
  assert (Hids : map getId (map f xs) = map getId xs).
  { rewrite map_map. apply map_ext_in. intros x Hx. now apply Hf. }
  split; [now rewrite Hids|split; [exact Hle|split]].
  - intros y Hy. apply in_map_iff in Hy. destruct Hy as [x [<- Hx]].
    destruct (Hf x Hx) as (-> & -> & _). now apply Hiff.
  - intros y Hy. apply in_map_iff in Hy. destruct Hy as [x [<- Hx]].
    destruct (Hf x Hx) as (-> & _ & Hs). intros Hin. apply Hs. now apply Hsel.
Qed.

Lemma coherent_filter (f : A -> bool) (xs : list A) (sel : list Z) (ps : list Party.t) :
  coh xs sel ps -> coh (filter f xs) sel ps.
Proof.
  intros (Hnd & Hle & Hiff & Hsel).
  split; [now apply NoDup_map_filter|split; [exact Hle|split]].
  - intros x Hx. apply filter_In in Hx. now apply Hiff.
  - intros x Hx. apply filter_In in Hx. now apply Hsel.
Qed.

(** A change of the selection that adds selectable entities only. *)
Lemma coherent_select (xs : list A) (sel sel' : list Z) (ps : list Party.t) :
  coh xs sel ps ->
  (forall x, In x xs -> In (getId x) sel' -> In (getId x) sel \/ selectable x = true) ->
  coh xs sel' ps.
Proof.
  intros (Hnd & Hle & Hiff & Hsel) H.
  split; [assumption|split; [assumption|split; [assumption|]]].
  intros x Hx Hs. destruct (H x Hx Hs) as [Hs'|]; [now apply Hsel | assumption].
Qed.

(** Forming a party from the selection: [enter] puts an entity in-party. *)
Lemma coherent_form (enter : A -> A) (xs : list A) (sel : list Z)
    (ps : list Party.t) (p : Party.t) :
  coh xs sel ps ->
  members p = map getId (filter (fun x => includes sel (getId x)) xs) ->
  (forall x, getId (enter x) = getId x /\ inParty (enter x) = true) ->
  coh (map (fun x => if includes sel (getId x) then enter x else x) xs)
      [] (ps ++ [p]).
Proof.
  intros (Hnd & Hle & Hiff & Hsel) Hp Henter.
  assert (Hmem : forall i, includes (members p) i = true <->
                           In i sel /\ In i (map getId xs)).
  { intros i. rewrite includes_In, Hp, in_map_iff. split.
    - intros [x [<- Hx]]. apply filter_In in Hx. destruct Hx as [Hx Hi].
      apply includes_In in Hi. split; [assumption | now apply in_map].
    - intros [Hi Hx]. apply in_map_iff in Hx. destruct Hx as [x [<- Hx]].
      exists x. split; [reflexivity|]. apply filter_In.
      split; [assumption | now apply includes_In]. }
  assert (Hnew : forall i, listed i (ps ++ [p])
                 = (listed i ps + if includes (members p) i then 1 else 0)%nat).
  { intros i. rewrite listedIn_app, listedIn_cons.
    change (listedIn members i []) with 0%nat. lia. }
  assert (Hzero : forall x, In x xs -> In (getId x) sel -> listed (getId x) ps = 0%nat).
  { intros x Hx Hs. pose proof (selectable_out x (Hsel x Hx Hs)) as Hout.
    pose proof (Hle (getId x)) as Hl. pose proof (Hiff x Hx) as [_ Hi].
    destruct (listed (getId x) ps) as [|[|n]]; [reflexivity | | lia].
    rewrite Hi in Hout by reflexivity. discriminate. }
  split; [|split; [|split]].
  - replace (map getId (map (fun x => if includes sel (getId x) then enter x else x) xs))
      with (map getId xs); [assumption|].
    rewrite map_map. apply map_ext. intros x.
    destruct (includes sel (getId x)); [now destruct (Henter x) | reflexivity].
  - intros i. rewrite Hnew. destruct (includes (members p) i) eqn:E.
    + apply Hmem in E. destruct E as [Hs Hx].
      apply in_map_iff in Hx. destruct Hx as [x [<- Hx]].
      rewrite (Hzero x Hx Hs). lia.
    + pose proof (Hle i). lia.
  - intros y Hy. apply in_map_iff in Hy. destruct Hy as [x [<- Hx]].
    rewrite Hnew. destruct (includes sel (getId x)) eqn:Es.
    + destruct (Henter x) as [-> ->].
      apply includes_In in Es.
      assert (E : includes (members p) (getId x) = true)
        by (apply Hmem; split; [assumption | now apply in_map]).
      rewrite E, (Hzero x Hx Es). now split.
    + assert (E : includes (members p) (getId x) = false).
      { destruct (includes (members p) (getId x)) eqn:E; [|reflexivity].
        apply Hmem in E. destruct E as [Hs _]. apply includes_In in Hs. congruence. }
      rewrite E, Nat.add_0_r. now apply Hiff.
  - intros y _ [].
Qed.

(** Completing the party found by id: [leave] takes an entity out of its
    party. *)
Lemma coherent_complete (leave : A -> A) (xs : list A) (sel : list Z)
    (ps : list Party.t) (partyId : Z) (p0 : Party.t) :
  coh xs sel ps ->
  NoDup (map Party.id ps) ->
  find (fun q => Party.id q =? partyId) ps = Some p0 ->
  (forall x, getId (leave x) = getId x /\ inParty (leave x) = false) ->
  coh (map (fun x => if includes (members p0) (getId x) then leave x else x) xs)
      sel (filter (fun q => negb (Party.id q =? partyId)) ps).
Proof.
  intros (Hnd & Hle & Hiff & Hsel) Hids Hfind Hleave.
  pose proof (fun i => listedIn_remove i partyId ps p0 Hids Hfind) as Hrem.
  split; [|split; [|split]].
  - replace (map getId (map (fun x => if includes (members p0) (getId x)
                                      then leave x else x) xs))
      with (map getId xs); [assumption|].
    rewrite map_map. apply map_ext. intros x.
    destruct (includes (members p0) (getId x)); [now destruct (Hleave x) | reflexivity].
  - intros i. pose proof (Hle i). pose proof (Hrem i). lia.
  - intros y Hy. apply in_map_iff in Hy. destruct Hy as [x [<- Hx]].
    pose proof (Hrem (getId x)) as Hr. pose proof (Hle (getId x)) as Hl.
    destruct (includes (members p0) (getId x)) eqn:E.
    + destruct (Hleave x) as [-> ->]. split; [discriminate | lia].
    + rewrite Nat.add_0_r in Hr. rewrite <- Hr. now apply Hiff.
  - intros y Hy Hs. apply in_map_iff in Hy. destruct Hy as [x [<- Hx]].
    pose proof (Hrem (getId x)) as Hr. pose proof (Hle (getId x)) as Hl.
    destruct (includes (members p0) (getId x)) eqn:E; [|now apply Hsel].
    exfalso. destruct (Hleave x) as [Hid _]. rewrite Hid in Hs.
    pose proof (selectable_out x (Hsel x Hx Hs)) as Hout.
    rewrite (proj2 (Hiff x Hx)) in Hout by lia. discriminate.
Qed.


End Membership.

(* ================================================================== *)
(** ** The invariant of the reachable states *)
(* ================================================================== *)

Lemma handleCreateParty_formed (s : AppState) :
  selectedKnightIds s <> [] -> selectedClientIds s <> [] ->
  handleCreateParty s =
  (mkState
     (map (fun k => if includes (selectedKnightIds s) (Knight.id k)
                    then Knight.withStatus k KInParty else k) (knights s))
     (map (fun c => if includes (selectedClientIds s) (Client.id c)
                    then Client.withStatus c CInParty else c) (clients s))
     (parties s ++
      [Party.mk (partyIdCounter s)
         (filter (fun k => includes (selectedKnightIds s) (Knight.id k)) (knights s))
         (filter (fun c => includes (selectedClientIds s) (Client.id c)) (clients s))
         false])
     [] [] (partyIdCounter s + 1)
     (itemToDelete s) (itemToEdit s) (isExportModalOpen s)
     (isImportModalOpen s) (exportedKnightData s),
   None).
Proof.
  intros Hk Hc. unfold handleCreateParty.
  destruct (selectedKnightIds s) as [|ik sk]; [congruence|].
  destruct (selectedClientIds s) as [|ic sc]; [congruence|].
  reflexivity.
Qed.

Lemma handleCreateParty_refused (s : AppState) :
  selectedKnightIds s = [] \/ selectedClientIds s = [] ->
  handleCreateParty s = (s, Some AlertSelectBoth).
Proof.
  intros [H|H]; unfold handleCreateParty; rewrite H; [reflexivity|].
  now destruct (selectedKnightIds s).
Qed.



Lemma knightSelectable_out (k : Knight.t) :
  knightSelectable k = true -> knightInParty k = false.
Proof. unfold knightSelectable. now destruct (knightInParty k). Qed.

Lemma clientSelectable_out (c : Client.t) :
  clientSelectable c = true -> clientInParty c = false.
Proof.
  unfold clientSelectable, clientInParty. now destruct (Client.status c).
Qed.

Lemma stateInvariant_init : stateInvariant initialState.
Proof.
  split; [apply coherent_nil | split; [apply coherent_nil | split]].
  - constructor.
  - intros p [].
Qed.

Lemma stateInvariant_add_knights (s : AppState) (ys : list Knight.t) :
  stateInvariant s ->
  NoDup (map Knight.id ys) ->
  (forall i, In i (map Knight.id ys) -> ~ In i (knightIdsInUse s)) ->
  (forall y, In y ys -> Knight.status y <> KInParty) ->
  stateInvariant (setKnights (knights s ++ ys) s).
Proof.
  intros (Hk & Hc & Hp) Hnd Hfresh Hst.
  split; [|split; assumption]. cbn [knights setKnights selectedKnightIds parties].
  apply (coherent_add _ _ _ _ knightSelectable_out); try assumption.
  intros y Hy. specialize (Hst y Hy). unfold knightSelectable, knightInParty.
  destruct (Knight.status y); simpl; congruence.
Qed.

Lemma stateInvariant_select_knight (s : AppState) (id : Z) :
  stateInvariant s ->
  stateInvariant (toggleSelection id TKnight s).
Proof.
  intros Hinv. pose proof Hinv as (Hk & Hc & Hp). unfold toggleSelection.
  assert (Hsel : forall kn, find (fun k => Knight.id k =? id) (knights s) = kn ->
            match kn with
            | Some k => Knight.status k = KWaiting
            | None => True
            end ->
            stateInvariant (setSelectedKnightIds (toggleId id (selectedKnightIds s)) s)).
  { intros kn Hfind Hkn. split; [|split; assumption].
    cbn [knights setSelectedKnightIds selectedKnightIds parties].
    eapply coherent_select; [exact Hk|]. intros x Hx Hs.
    apply toggleId_In in Hs. destruct Hs as [[E _]|[_ Hs]]; [|now left]. right.
    destruct kn as [k|].
    - apply find_id_In in Hfind. destruct Hfind as [Hin Hid].
      assert (x = k) by (apply (NoDup_ids_eq Knight.id (knights s));
                         [apply Hk | assumption | assumption | congruence]).
      subst x. unfold knightSelectable, knightInParty. now rewrite Hkn.
    - apply find_id_None in Hfind. exfalso. apply Hfind. rewrite <- E. now apply in_map. }
  destruct (find (fun k => Knight.id k =? id) (knights s)) as [k|] eqn:E.
  - destruct (Knight.status k) eqn:Es; simpl.
    + now apply (Hsel (Some k)).
    + exact Hinv.
    + exact Hinv.
  - now apply (Hsel None).
Qed.

Lemma stateInvariant_select_client (s : AppState) (id : Z) :
  stateInvariant s ->
  stateInvariant (toggleSelection id TClient s).
Proof.
  intros Hinv. pose proof Hinv as (Hk & Hc & Hp). unfold toggleSelection.
  assert (Hsel : forall cl, find (fun c => Client.id c =? id) (clients s) = cl ->
            match cl with
            | Some c => Client.status c = CWaiting
            | None => True
            end ->
            stateInvariant (setSelectedClientIds (toggleId id (selectedClientIds s)) s)).
  { intros cl Hfind Hcl. split; [assumption|split; [|assumption]].
    cbn [clients setSelectedClientIds selectedClientIds parties].
    eapply coherent_select; [exact Hc|]. intros x Hx Hs.
    apply toggleId_In in Hs. destruct Hs as [[E _]|[_ Hs]]; [|now left]. right.
    destruct cl as [c|].
    - apply find_id_In in Hfind. destruct Hfind as [Hin Hid].
      assert (x = c) by (apply (NoDup_ids_eq Client.id (clients s));
                         [apply Hc | assumption | assumption | congruence]).
      subst x. unfold clientSelectable. now rewrite Hcl.
    - apply find_id_None in Hfind. exfalso. apply Hfind. rewrite <- E. now apply in_map. }
  destruct (find (fun c => Client.id c =? id) (clients s)) as [c|] eqn:E.
  - destruct (Client.status c) eqn:Es; simpl.
    + now apply (Hsel (Some c)).
    + exact Hinv.
    + exact Hinv.
  - now apply (Hsel None).
Qed.

Lemma stateInvariant_create (s : AppState) :
  stateInvariant s -> stateInvariant (fst (handleCreateParty s)).
Proof.
  intros Hinv. pose proof Hinv as (Hk & Hc & Hnd & Hlt).
  destruct (selectedKnightIds s) as [|ik sk] eqn:Ek.
  { rewrite handleCreateParty_refused by now left. exact Hinv. }
  destruct (selectedClientIds s) as [|ic sc] eqn:Ec.
  { rewrite handleCreateParty_refused by now right. exact Hinv. }
  rewrite handleCreateParty_formed by congruence.
  rewrite Ek, Ec. unfold stateInvariant.
  cbn [fst knights clients parties selectedKnightIds selectedClientIds partyIdCounter].
  split; [|split; [|split]].
  - apply (coherent_form Knight.id knightInParty knightSelectable knightIdsOf
             knightSelectable_out (fun k => Knight.withStatus k KInParty));
      [assumption|reflexivity|]. now intros x.
  - apply (coherent_form Client.id clientInParty clientSelectable clientIdsOf
             clientSelectable_out (fun c => Client.withStatus c CInParty));
      [assumption|reflexivity|]. now intros x.
  - rewrite map_app. apply NoDup_app; [assumption | constructor; [intros []|constructor]|].
    intros i Hi [<-|[]]. apply in_map_iff in Hi. destruct Hi as [p [E Hp]].
    specialize (Hlt p Hp). cbn in E. lia.
  - intros p Hp. apply in_app_iff in Hp. destruct Hp as [Hp|[<-|[]]].
    + specialize (Hlt p Hp). lia.
    + cbn. lia.
Qed.

Lemma stateInvariant_complete (s : AppState) (partyId : Z) :
  stateInvariant s -> stateInvariant (handleCompleteMission partyId s).
Proof.
  intros Hinv. pose proof Hinv as (Hk & Hc & Hnd & Hlt).
  destruct (find (fun q => Party.id q =? partyId) (parties s)) as [p0|] eqn:E.
  - rewrite (handleCompleteMission_found _ _ _ E). unfold stateInvariant.
    cbn [knights clients parties selectedKnightIds selectedClientIds partyIdCounter].
    split; [|split; [|split]].
    + apply (coherent_complete Knight.id knightInParty knightSelectable knightIdsOf
               knightSelectable_out
               (fun k => Knight.mk (Knight.id k) (Knight.name k) (Knight.job k)
                           (Knight.power k) (Knight.relayCount k + 1) KWaiting));
        try assumption. now intros x.
    + apply (coherent_complete Client.id clientInParty clientSelectable clientIdsOf
               clientSelectable_out
               (fun c => Client.withStatus c CCompleted)); try assumption.
      now intros x.
    + now apply NoDup_map_filter.
    + intros p Hp. apply filter_In in Hp. now apply Hlt.
  - rewrite (handleCompleteMission_missing _ _ E). exact Hinv.
Qed.

Lemma forEachLine_off_duty (clock : nat -> Z) (lines : list jsstring) :
  forall index newKnights invalidLines k,
    In k (fst (forEachLine clock index lines newKnights invalidLines)) ->
    In k newKnights \/ Knight.status k = KOffDuty.
Proof.
  induction lines as [|line lines IH]; intros index acc n k; simpl; [now left|].
  destruct (importLine (clock index) index line) as [k0|] eqn:E; intros Hin.
  - apply IH in Hin. destruct Hin as [Hin|]; [|now right].
    apply in_app_iff in Hin. destruct Hin as [Hin|[<-|[]]]; [now left|]. right.
    apply importLine_accepts_iff in E.
    now destruct E as (? & ? & ? & ? & ? & ? & _ & _ & _ & _ & _ & ->).
  - now apply IH in Hin.
Qed.

(** With a clock that never goes back, the knights of one import get
    distinct ids: the id of a line is the reading made for it plus its
    index. *)
Lemma forEachLine_ids (clock : nat -> Z) (lines : list jsstring) :
  (forall i j, (i <= j)%nat -> clock i <= clock j) ->
  forall index newKnights invalidLines,
    NoDup (map Knight.id newKnights) ->
    (forall k, In k newKnights -> Knight.id k < clock index + Z.of_nat index) ->
    NoDup (map Knight.id (fst (forEachLine clock index lines newKnights invalidLines))).
Proof.
  intros Hmono. induction lines as [|line lines IH]; intros index acc n Hnd Hlt;
    simpl; [assumption|].
  pose proof (Hmono index (S index) ltac:(lia)) as Hstep.
  destruct (importLine (clock index) index line) as [k|] eqn:E.
  - apply importLine_accepts_iff in E.
    destruct E as (? & ? & ? & ? & ? & ? & _ & _ & _ & _ & _ & ->).
    apply IH.
    + rewrite map_app. apply NoDup_app; [assumption | constructor; [intros []|constructor]|].
      intros i Hi [<-|[]]. apply in_map_iff in Hi. destruct Hi as [k [E Hk]].
      specialize (Hlt k Hk). cbn in E. lia.
    + intros k Hk. apply in_app_iff in Hk. destruct Hk as [Hk|[<-|[]]].
      * specialize (Hlt k Hk). lia.
      * cbn. lia.
  - apply IH; [assumption|]. intros k Hk. specialize (Hlt k Hk). lia.
Qed.

Lemma importedKnights_ids (clock : nat -> Z) (data : jsstring) :
  (forall i j, (i <= j)%nat -> clock i <= clock j) ->
  NoDup (map Knight.id (importedKnights clock data)).
Proof.
  intros Hmono. unfold importedKnights.
  apply forEachLine_ids; [assumption | constructor | intros k []].
Qed.

Lemma handleImportKnights_knights (clock : nat -> Z) (data : jsstring) (s : AppState) :
  let s' := fst (handleImportKnights clock data s) in
  (s' = s
   \/ s' = setIsImportModalOpen false s
   \/ s' = setIsImportModalOpen false
             (setKnights (knights s ++ importedKnights clock data) s)).
Proof.
  unfold handleImportKnights, importedKnights.
  destruct (negb (truthy (trim data))); [now left|].
  destruct (forEachLine clock 0 (split LF (trim data)) [] 0%nat) as [[|k ks] n];
    simpl; tauto.
Qed.

(** Every enabled command keeps the invariant. *)
Lemma stateInvariant_step (s : AppState) (c : Command) :
  stateInvariant s -> enabled c s -> stateInvariant (run c s).
Proof.
  intros Hinv Hen. destruct c as [now data | now data | k data | c data | type id
                                  | id type | | partyId | knightId | | clock data];
    cbn [run].
  - apply (stateInvariant_add_knights s [_]); try assumption.
    + constructor; [intros []|constructor].
    + intros i [<-|[]]. exact Hen.
    + intros y [<-|[]]. discriminate.
  - destruct Hinv as (Hk & Hc & Hp). split; [assumption|split; [|assumption]].
    cbn [handleAddClient clients setClients selectedClientIds parties].
    apply (coherent_add _ _ _ _ clientSelectable_out); try assumption.
    + constructor; [intros []|constructor].
    + intros i [<-|[]]. exact Hen.
    + intros y [<-|[]]. reflexivity.
  - destruct Hinv as (Hk & Hc & Hp). split; [|split; assumption].
    cbn [handleUpdateItem setItemToEdit itemToEdit knights setKnights
         selectedKnightIds parties].
    apply coherent_map; [assumption|]. intros x Hx. cbn in Hen.
    destruct (Z.eqb_spec (Knight.id x) (Knight.id k)) as [E|E]; [|now repeat split].
    assert (x = k) by (apply (NoDup_ids_eq Knight.id (knights s));
                       [apply Hk | assumption | assumption | assumption]).
    subst x. now repeat split.
  - destruct Hinv as (Hk & Hc & Hp). split; [assumption|split; [|assumption]].
    cbn [handleUpdateItem setItemToEdit itemToEdit clients setClients
         selectedClientIds parties].
    apply coherent_map; [assumption|]. intros x Hx. cbn in Hen.
    destruct (Z.eqb_spec (Client.id x) (Client.id c)) as [E|E]; [|now repeat split].
    assert (x = c) by (apply (NoDup_ids_eq Client.id (clients s));
                       [apply Hc | assumption | assumption | assumption]).
    subst x. now repeat split.
  - destruct Hinv as (Hk & Hc & Hp). destruct type.
    + split; [|split; assumption].
      cbn [handleDelete setItemToDelete itemToDelete knights setKnights
           selectedKnightIds parties].
      now apply coherent_filter.
    + split; [assumption|split; [|assumption]].
      cbn [handleDelete setItemToDelete itemToDelete clients setClients
           selectedClientIds parties].
      now apply coherent_filter.
  - destruct type;
      [now apply stateInvariant_select_knight | now apply stateInvariant_select_client].
  - now apply stateInvariant_create.
  - now apply stateInvariant_complete.
  - destruct Hinv as (Hk & Hc & Hp). split; [|split; assumption].
    cbn [handleToggleKnightStatus knights setKnights selectedKnightIds parties].
    apply coherent_map; [assumption|]. intros x Hx.
    unfold knightSelectable, knightInParty.
    destruct (Knight.id x =? knightId); [|now repeat split].
    destruct (Knight.status x) eqn:Es; simpl; rewrite ?Es; now repeat split.
  - exact Hinv.
  - cbn in Hen. destruct Hen as [Hnd Hfresh].
    destruct (handleImportKnights_knights clock data s) as [E|[E|E]];
      cbv zeta in E; rewrite E.
    + exact Hinv.
    + exact Hinv.
    + apply (stateInvariant_add_knights s (importedKnights clock data));
        try assumption.
      intros y Hy. unfold importedKnights in Hy.
      apply forEachLine_off_duty in Hy. destruct Hy as [[]|Hst].
      rewrite Hst. discriminate.
Qed.

Lemma reachable_stateInvariant (s : AppState) : reachable s -> stateInvariant s.
Proof.
  induction 1 as [|s c _ IH Hen]; [apply stateInvariant_init|].
  now apply stateInvariant_step.
Qed.



(* ================================================================== *)
(** ** Status transitions *)
(* ================================================================== *)

Lemma map_id_on {A} (f : A -> A) (l : list A) :
  (forall x, In x l -> f x = x) -> map f l = l.
Proof.
  induction l as [|x l IH]; simpl; intros H; [reflexivity|].
  rewrite (H x (or_introl eq_refl)). f_equal. apply IH. intros y Hy. apply H. now right.
Qed.

(** X5.  Submitting the edit form for a knight of the collection, with unique
    identifiers: every knight keeps its id, relayCount and status; the
    knight under edit takes the name and job of the form and its power times
    1000; the other knights, the clients and the parties are untouched. *)
Lemma updateKnight_keeps_status (s : AppState) (e : Knight.t) (data : FormData.t) :
  In e (knights s) -> NoDup (map Knight.id (knights s)) ->
  let s' := run (CmdUpdateKnight e data) s in
  Forall2 (fun k k' =>
             Knight.id k' = Knight.id k /\ Knight.status k' = Knight.status k
             /\ Knight.relayCount k' = Knight.relayCount k
             /\ (if Knight.id k =? Knight.id e
                 then Knight.name k' = FormData.name data
                      /\ Knight.job k' = FormData.job data
                      /\ Knight.power k' = FormData.power data * 1000
                 else k' = k))
    (knights s) (knights s')
  /\ clients s' = clients s /\ parties s' = parties s.
Proof.
  intros Hin Hnd s'. subst s'.
  cbn [run handleUpdateItem setItemToEdit itemToEdit knights setKnights clients parties].
  split; [|now split].
  assert (H : forall l, (forall x, In x l -> In x (knights s)) ->
    Forall2 (fun k k' =>
             Knight.id k' = Knight.id k /\ Knight.status k' = Knight.status k
             /\ Knight.relayCount k' = Knight.relayCount k
             /\ (if Knight.id k =? Knight.id e
                 then Knight.name k' = FormData.name data
                      /\ Knight.job k' = FormData.job data
                      /\ Knight.power k' = FormData.power data * 1000
                 else k' = k))
      l (map (fun k => if Knight.id k =? Knight.id e
                       then Knight.mk (Knight.id e) (FormData.name data)
                              (FormData.job data) (FormData.power data * 1000)
                              (Knight.relayCount e) (Knight.status e)
                       else k) l)).
  { induction l as [|x l IH]; intros Hl; simpl; constructor.
    - destruct (Z.eqb_spec (Knight.id x) (Knight.id e)) as [E|E]; [|now repeat split].
      assert (x = e) by (apply (NoDup_ids_eq Knight.id (knights s)); try assumption;
                         apply Hl; now left).
      subst x. now repeat split.
    - apply IH. intros y Hy. apply Hl. now right. }
  now apply H.
Qed.

(** X6.  The same for a client of the collection; the form's notes replace
    the client's notes. *)
Lemma updateClient_keeps_status (s : AppState) (e : Client.t) (data : FormData.t) :
  In e (clients s) -> NoDup (map Client.id (clients s)) ->
  let s' := run (CmdUpdateClient e data) s in
  Forall2 (fun c c' =>
             Client.id c' = Client.id c /\ Client.status c' = Client.status c
             /\ (if Client.id c =? Client.id e
                 then Client.name c' = FormData.name data
                      /\ Client.job c' = FormData.job data
                      /\ Client.power c' = FormData.power data * 1000
                      /\ Client.notes c' = FormData.notes data
                 else c' = c))
    (clients s) (clients s')
  /\ knights s' = knights s /\ parties s' = parties s.
Proof.
  intros Hin Hnd s'. subst s'.
  cbn [run handleUpdateItem setItemToEdit itemToEdit knights setClients clients parties].
  split; [|now split].
  assert (H : forall l, (forall x, In x l -> In x (clients s)) ->
    Forall2 (fun c c' =>
             Client.id c' = Client.id c /\ Client.status c' = Client.status c
             /\ (if Client.id c =? Client.id e
                 then Client.name c' = FormData.name data
                      /\ Client.job c' = FormData.job data
                      /\ Client.power c' = FormData.power data * 1000
                      /\ Client.notes c' = FormData.notes data
                 else c' = c))
      l (map (fun c => if Client.id c =? Client.id e
                       then Client.mk (Client.id e) (FormData.name data)
                              (FormData.job data) (FormData.power data * 1000)
                              (FormData.notes data) (Client.status e)
                       else c) l)).
  { induction l as [|x l IH]; intros Hl; simpl; constructor.
    - destruct (Z.eqb_spec (Client.id x) (Client.id e)) as [E|E]; [|now repeat split].
      assert (x = e) by (apply (NoDup_ids_eq Client.id (clients s)); try assumption;
                         apply Hl; now left).
      subst x. now repeat split.
    - apply IH. intros y Hy. apply Hl. now right. }
  now apply H.
Qed.

(** X7.  Toggling the duty of a knight of the collection that is in-party, with
    unique identifiers, returns the state as it was. *)
Lemma handleToggleKnightStatus_in_party (s : AppState) (k : Knight.t) :
  In k (knights s) -> NoDup (map Knight.id (knights s)) ->
  Knight.status k = KInParty ->
  handleToggleKnightStatus (Knight.id k) s = s.
Proof.
  intros Hin Hnd Hst. unfold handleToggleKnightStatus.
  rewrite map_id_on; [now destruct s|].
  intros x Hx. destruct (Z.eqb_spec (Knight.id x) (Knight.id k)) as [E|E]; [|reflexivity].
  assert (x = k) by now apply (NoDup_ids_eq Knight.id (knights s)).
  subst x. now rewrite Hst.
Qed.

(** Toggling the duty of a knight moves it between waiting and off-duty. *)
Lemma handleToggleKnightStatus_edges (s : AppState) (knightId : Z) :
  Forall2 (fun k k' =>
             if Knight.id k =? knightId then
               k' = match Knight.status k with
                    | KWaiting => Knight.withStatus k KOffDuty
                    | KOffDuty => Knight.withStatus k KWaiting
                    | KInParty => k
                    end
             else k' = k)
    (knights s) (knights (handleToggleKnightStatus knightId s)).
Proof.
  unfold handleToggleKnightStatus. cbn [knights setKnights].
  induction (knights s) as [|x l IH]; simpl; constructor; [|exact IH].
  now destruct (Knight.id x =? knightId).
Qed.

(** C5 at its failing input.  Hong is added and selected while waiting, then
    goes off duty: the selection still holds Hong's id.  Forming the party
    then takes Hong from off-duty to in-party, which is not an edge of the
    knight life cycle.  Every state of the run is reachable. *)
Theorem offDuty_knight_enters_party :
  reachable stateOffDutySelected
  /\ knightStatusOf 1 stateSelected = Some KWaiting
  /\ knightStatusOf 1 stateOffDutySelected = Some KOffDuty
  /\ selectedKnightIds stateOffDutySelected = [1]
  /\ selectedClientIds stateOffDutySelected = [2]
  /\ knightStatusOf 1 (run CmdCreateParty stateOffDutySelected) = Some KInParty
  /\ knightEdge KOffDuty KInParty = false.
Proof.
  split; [apply reachable_stateOffDutySelected|]. now vm_compute.
Qed.

(* ================================================================== *)
(** ** The status life cycles on reachable states *)
(* ================================================================== *)






(** Apart from the step from off-duty to in-party that forming a party can
    make, the steps allowed to a knight are the edges of the knight life
    cycle; the steps allowed to a client are the edges of the client life
    cycle. *)
Lemma knightStepAllowed_edges (c : Command) (a b : KnightStatus) :
  knightStepAllowed c a b ->
  a = b \/ knightEdge a b = true
  \/ (c = CmdCreateParty /\ a = KOffDuty /\ b = KInParty).
Proof.
  destruct c; cbn [knightStepAllowed]; intros H;
    try (now left); decompose [and or] H; subst; auto.
Qed.

Lemma clientStepAllowed_edges (c : Command) (a b : ClientStatus) :
  clientStepAllowed c a b -> a = b \/ clientEdge a b = true.
Proof.
  destruct c; cbn [clientStepAllowed]; intros H;
    try (now left); decompose [and or] H; subst; auto.
Qed.



(** X5, on editing Hong while in party 1: the status stays in-party. *)
Lemma updateKnight_keeps_status_witness :
  In (Knight.withStatus knightHong KInParty) (knights stateParty)
  /\ NoDup (map Knight.id (knights stateParty))
  /\ parties (run (CmdUpdateKnight (Knight.withStatus knightHong KInParty) formKim)
                stateParty)
     = parties stateParty.
Proof.
  assert (Hin : In (Knight.withStatus knightHong KInParty) (knights stateParty))
    by (vm_compute; now left).
  assert (Hnd : NoDup (map Knight.id (knights stateParty))).
  { vm_compute. constructor; [intros []|constructor]. }
  pose proof (updateKnight_keeps_status stateParty _ formKim Hin Hnd) as H.
  cbv zeta in H. destruct H as (_ & _ & Hp).
  split; [exact Hin | split; [exact Hnd | exact Hp]].
Defined.

(** X6, on editing Kim while in party 1. *)
Lemma updateClient_keeps_status_witness :
  In (Client.withStatus clientKim CInParty) (clients stateParty)
  /\ NoDup (map Client.id (clients stateParty))
  /\ parties (run (CmdUpdateClient (Client.withStatus clientKim CInParty) formHong)
                stateParty)
     = parties stateParty.
Proof.
  assert (Hin : In (Client.withStatus clientKim CInParty) (clients stateParty))
    by (vm_compute; now left).
  assert (Hnd : NoDup (map Client.id (clients stateParty))).
  { vm_compute. constructor; [intros []|constructor]. }
  pose proof (updateClient_keeps_status stateParty _ formHong Hin Hnd) as H.
  cbv zeta in H. destruct H as (_ & _ & Hp).
  split; [exact Hin | split; [exact Hnd | exact Hp]].
Defined.

(** X7, on Hong while in party 1. *)
Lemma handleToggleKnightStatus_in_party_witness :
  In (Knight.withStatus knightHong KInParty) (knights stateParty)
  /\ NoDup (map Knight.id (knights stateParty))
  /\ handleToggleKnightStatus 1 stateParty = stateParty.
Proof.
  assert (Hin : In (Knight.withStatus knightHong KInParty) (knights stateParty))
    by (vm_compute; now left).
  assert (Hnd : NoDup (map Knight.id (knights stateParty))).
  { vm_compute. constructor; [intros []|constructor]. }
  split; [exact Hin | split; [exact Hnd|]].
  exact (handleToggleKnightStatus_in_party stateParty _ Hin Hnd eq_refl).
Defined.


(** X2.  The summary of an import of text that is not blank: the alert
    reports the number of knights added and the number of lines ignored,
    which add up to the number of lines; the knights added are appended to
    the collection in line order, all off-duty; clients and parties are
    untouched.  A line that is ignored stops nothing. *)
Theorem handleImportKnights_summary (clock : nat -> Z) (data : jsstring) (s : AppState) :
  truthy (trim data) = true ->
  exists ignored,
    snd (handleImportKnights clock data s)
    = Some (AlertImported (List.length (importedKnights clock data)) ignored)
    /\ (List.length (importedKnights clock data) + ignored
        = List.length (split LF (trim data)))%nat
    /\ knights (fst (handleImportKnights clock data s))
       = knights s ++ importedKnights clock data
    /\ Forall (fun k => Knight.status k = KOffDuty) (importedKnights clock data)
    /\ clients (fst (handleImportKnights clock data s)) = clients s
    /\ parties (fst (handleImportKnights clock data s)) = parties s.
Proof.
  intros Ht. unfold handleImportKnights, importedKnights. rewrite Ht. cbn [negb].
  pose proof (forEachLine_counts clock (split LF (trim data)) 0 [] 0) as Hcount.
  pose proof (forEachLine_off_duty clock (split LF (trim data)) 0 [] 0) as Hoff.
  destruct (forEachLine clock 0 (split LF (trim data)) [] 0%nat) as [new n].
  cbn [fst snd] in *. exists n.
  split; [reflexivity|]. split; [exact Hcount|].
  split; [destruct new; [now rewrite app_nil_r | reflexivity]|].
  split; [|destruct new; now split].
  apply Forall_forall. intros k Hk. now destruct (Hoff k Hk) as [[]|].
Qed.

(** X2, on the two lines of [blankNameData]. *)
Lemma handleImportKnights_summary_witness :
  truthy (trim blankNameData) = true
  /\ exists ignored,
       snd (handleImportKnights clockAt100 blankNameData initialState)
       = Some (AlertImported
                 (List.length (importedKnights clockAt100 blankNameData)) ignored).
Proof.
  assert (Ht : truthy (trim blankNameData) = true) by reflexivity.
  destruct (handleImportKnights_summary clockAt100 blankNameData initialState Ht)
    as (ignored & H & _).
  split; [exact Ht|]. exists ignored. exact H.
Defined.

(** X8.  In every reachable state the knights of the collection have
    distinct ids, so do the clients, and so do the live parties, whose ids
    lie below the party counter. *)
Theorem reachable_unique_ids (s : AppState) :
  reachable s ->
  NoDup (map Knight.id (knights s))
  /\ NoDup (map Client.id (clients s))
  /\ NoDup (map Party.id (parties s))
  /\ (forall p, In p (parties s) -> Party.id p < partyIdCounter s).
Proof.
  intros Hr. apply reachable_stateInvariant in Hr.
  destruct Hr as ((Hk & _) & (Hc & _) & Hp & Hlt). now repeat split.
Qed.

(** X8, at the state where party 1 holds Hong and Kim. *)
Lemma reachable_unique_ids_witness :
  reachable stateParty /\ NoDup (map Party.id (parties stateParty)).
Proof.
  split; [apply reachable_stateParty|].
  now destruct (reachable_unique_ids stateParty reachable_stateParty) as (_ & _ & H & _).
Defined.

(** The snapshot in [itemToEdit] decides the status that [handleUpdateItem]
    writes: submitted on the snapshot of Hong taken while waiting, against
    the state where Hong is in party 1, it sets Hong back to waiting.  The
    command [CmdUpdateKnight] always edits the listed item, which is what the
    dialog does when nothing runs between its opening and its submission. *)
Remark handleUpdateItem_stale_snapshot :
  map Knight.status (knights stateParty) = [KInParty]
  /\ map Knight.status
       (knights (handleUpdateItem formHong
                   (setItemToEdit (Some (inl knightHong)) stateParty)))
     = [KWaiting].
Proof. split; reflexivity. Qed.

(* ================================================================== *)
(** ** How the handlers compose *)
(* ================================================================== *)

Lemma find_id_other {A} (getId : A -> Z) (l : list A) (i j : Z) :
  j <> i ->
  find (fun y => getId y =? j) (filter (fun y => negb (getId y =? i)) l)
  = find (fun y => getId y =? j) l.
Proof.
  intros Hne. induction l as [|y l IH]; simpl; [reflexivity|].
  destruct (Z.eqb_spec (getId y) i) as [Ei|Ei]; simpl.
  - destruct (Z.eqb_spec (getId y) j); [congruence | exact IH].
  - now rewrite IH.
Qed.

Lemma filter_comm {A} (f g : A -> bool) (l : list A) :
  filter f (filter g l) = filter g (filter f l).
Proof.
  induction l as [|x l IH]; simpl; [reflexivity|].
  destruct (g x) eqn:Eg, (f x) eqn:Ef; simpl; rewrite ?Eg, ?Ef, ?IH; reflexivity.
Qed.

(** X9.  Toggling the duty of the same knight twice gives the state back:
    waiting goes off duty and returns, off-duty goes waiting and returns, and
    an in-party knight is never touched. *)
Theorem handleToggleKnightStatus_twice (knightId : Z) (s : AppState) :
  handleToggleKnightStatus knightId (handleToggleKnightStatus knightId s) = s.
Proof.
  destruct s as [ks cs ps sk sc n d e ex im data].
  unfold handleToggleKnightStatus, setKnights. cbn [knights clients parties
    selectedKnightIds selectedClientIds partyIdCounter itemToDelete itemToEdit
    isExportModalOpen isImportModalOpen exportedKnightData].
  f_equal. rewrite map_map. apply map_id_on. intros x _.
  destruct (Z.eqb_spec (Knight.id x) knightId) as [E|E].
  - destruct x as [i nm jb pw rc st]. cbn in E. subst i.
    destruct st; cbn; rewrite ?Z.eqb_refl; reflexivity.
  - destruct (Z.eqb_spec (Knight.id x) knightId); [contradiction | reflexivity].
Qed.

Lemma handleCompleteMission_other (p q : Z) (s : AppState) :
  p <> q ->
  find (fun r => Party.id r =? p) (parties (handleCompleteMission q s))
  = find (fun r => Party.id r =? p) (parties s).
Proof.
  intros Hne. destruct (find (fun r => Party.id r =? q) (parties s)) as [q0|] eqn:E.
  - rewrite (handleCompleteMission_found _ _ _ E). cbn [parties].
    now apply find_id_other.
  - now rewrite (handleCompleteMission_missing _ _ E).
Qed.

(** X10.  Missions can be completed in either order: completing party [p]
    and then party [q] gives the same state as completing [q] and then [p],
    whatever the snapshots list. *)
Theorem handleCompleteMission_commute (p q : Z) (s : AppState) :
  handleCompleteMission p (handleCompleteMission q s)
  = handleCompleteMission q (handleCompleteMission p s).
Proof.
  destruct (Z.eq_dec p q) as [->|Hne]; [reflexivity|].
  assert (Hne' : q <> p) by congruence.
  pose proof (handleCompleteMission_other p q s Hne) as Hp.
  pose proof (handleCompleteMission_other q p s Hne') as Hq.
  destruct (find (fun r => Party.id r =? p) (parties s)) as [p0|] eqn:Ep;
    destruct (find (fun r => Party.id r =? q) (parties s)) as [q0|] eqn:Eq.
  - rewrite (handleCompleteMission_found _ _ _ Hp), (handleCompleteMission_found _ _ _ Hq).
    rewrite (handleCompleteMission_found _ _ _ Ep), (handleCompleteMission_found _ _ _ Eq).
    cbn [knights clients parties selectedKnightIds selectedClientIds partyIdCounter
         itemToDelete itemToEdit isExportModalOpen isImportModalOpen exportedKnightData].
    f_equal.
    + rewrite !map_map. apply map_ext. intros k.
      destruct (includes (knightIdsOf p0) (Knight.id k)) eqn:E1;
        destruct (includes (knightIdsOf q0) (Knight.id k)) eqn:E2;
        cbn [Knight.id Knight.name Knight.job Knight.power Knight.relayCount];
        rewrite ?E1, ?E2; reflexivity.
    + rewrite !map_map. apply map_ext. intros c.
      destruct (includes (clientIdsOf p0) (Client.id c)) eqn:E1;
        destruct (includes (clientIdsOf q0) (Client.id c)) eqn:E2;
        cbn [Client.withStatus Client.id]; rewrite ?E1, ?E2; reflexivity.
    + apply filter_comm.
  - rewrite (handleCompleteMission_missing _ _ Eq).
    rewrite (handleCompleteMission_missing q (handleCompleteMission p s)) by assumption.
    reflexivity.
  - rewrite (handleCompleteMission_missing _ _ Ep).
    rewrite (handleCompleteMission_missing p (handleCompleteMission q s)) by assumption.
    reflexivity.
  - rewrite (handleCompleteMission_missing _ _ Ep), (handleCompleteMission_missing _ _ Eq).
    now rewrite (handleCompleteMission_missing _ _ Ep).
Qed.

Lemma run_parties (c : Command) (s : AppState) :
  partyIdCounter s <= partyIdCounter (run c s)
  /\ forall p, In p (parties (run c s)) ->
       In p (parties s)
       \/ (Party.id p = partyIdCounter s
           /\ partyIdCounter (run c s) = partyIdCounter s + 1
           /\ Party.isCompleted p = false).
Proof.
  assert (Hsame : forall s', parties s' = parties s ->
            partyIdCounter s' = partyIdCounter s ->
            partyIdCounter s <= partyIdCounter s'
            /\ forall p, In p (parties s') ->
                 In p (parties s)
                 \/ (Party.id p = partyIdCounter s
                     /\ partyIdCounter s' = partyIdCounter s + 1
                     /\ Party.isCompleted p = false)).
  { intros s' -> ->. split; [lia | now left]. }
  destruct c as [now data | now data | k data | c data | type i
                 | i type | | partyId | knightId | | clock data]; cbn [run];
    try (apply Hsame; reflexivity).
  - destruct type; apply Hsame; reflexivity.
  - unfold toggleSelection. destruct type.
    + destruct (find _ (knights s)) as [k|]; [destruct (negb _)|];
        apply Hsame; reflexivity.
    + destruct (find _ (clients s)) as [k|]; [destruct (negb _)|];
        apply Hsame; reflexivity.
  - destruct (selectedKnightIds s) as [|ik sk] eqn:Ek.
    { rewrite handleCreateParty_refused by now left. now apply Hsame. }
    destruct (selectedClientIds s) as [|ic sc] eqn:Ec.
    { rewrite handleCreateParty_refused by now right. now apply Hsame. }
    rewrite handleCreateParty_formed by congruence. cbn [fst parties partyIdCounter].
    split; [lia|]. intros p Hp. apply in_app_iff in Hp.
    destruct Hp as [Hp|[<-|[]]]; [now left | right; now repeat split].
  - destruct (find (fun q => Party.id q =? partyId) (parties s)) as [p0|] eqn:E.
    + rewrite (handleCompleteMission_found _ _ _ E). cbn [parties partyIdCounter].
      split; [lia|]. intros p Hp. apply filter_In in Hp. now left.
    + rewrite (handleCompleteMission_missing _ _ E). now apply Hsame.
  - destruct (handleImportKnights_knights clock data s) as [E|[E|E]];
      cbv zeta in E; rewrite E; apply Hsame; reflexivity.
Qed.

(** X11.  Over any run of commands, from any state: the party counter never
    goes down; a party that is live after the run either was live before it,
    with the very same snapshot, or was formed during it with an id that lies
    between the counter before and the counter after.  So a snapshot is never
    rewritten and a party id is never given out twice, also after the party
    that had it was completed. *)
Theorem parties_history (cs : list Command) (s : AppState) :
  partyIdCounter s <= partyIdCounter (runAll cs s)
  /\ forall p, In p (parties (runAll cs s)) ->
       In p (parties s)
       \/ partyIdCounter s <= Party.id p < partyIdCounter (runAll cs s).
Proof.
  revert s. induction cs as [|c cs IH]; intros s; simpl.
  - split; [lia | now left].
  - destruct (IH (run c s)) as [Hmono Hp]. destruct (run_parties c s) as [Hstep Hnew].
    split; [lia|]. intros p Hin. destruct (Hp p Hin) as [H|H]; [|right; lia].
    destruct (Hnew p H) as [H'|(H1 & H2 & _)]; [now left | right; lia].
Qed.

(* ================================================================== *)
(** ** Deleting *)
(* ================================================================== *)

Lemma filter_not_id {A} (getId : A -> Z) (l : list A) (i : Z) :
  ~ In i (map getId (filter (fun y => negb (getId y =? i)) l)).
Proof.
  rewrite in_map_iff. intros [y [E Hy]]. apply filter_In in Hy.
  destruct Hy as [_ Hy]. rewrite E, Z.eqb_refl in Hy. discriminate.
Qed.

(** X12.  Deleting by id removes every knight with that id and nothing
    else: afterwards no knight has the id, looking up any other id gives what
    it gave before, and the clients and the parties are as they were, so a
    live party keeps listing a deleted knight.  Deleting a client does the
    same on the clients. *)
Theorem delete_removes_by_id (s : AppState) (id : Z) :
  (let s' := run (CmdDelete TKnight id) s in
   ~ In id (map Knight.id (knights s'))
   /\ (forall j, j <> id ->
         find (fun k => Knight.id k =? j) (knights s')
         = find (fun k => Knight.id k =? j) (knights s))
   /\ (forall k, In k (knights s') -> In k (knights s))
   /\ clients s' = clients s /\ parties s' = parties s)
  /\
  (let s' := run (CmdDelete TClient id) s in
   ~ In id (map Client.id (clients s'))
   /\ (forall j, j <> id ->
         find (fun c => Client.id c =? j) (clients s')
         = find (fun c => Client.id c =? j) (clients s))
   /\ (forall c, In c (clients s') -> In c (clients s))
   /\ knights s' = knights s /\ parties s' = parties s).
Proof.
  split; cbn [run handleDelete setItemToDelete itemToDelete knights clients parties
              setKnights setClients].
  - split; [apply filter_not_id|]. split; [intros j Hj; now apply find_id_other|].
    split; [|now split]. intros k Hk. now apply filter_In in Hk.
  - split; [apply filter_not_id|]. split; [intros j Hj; now apply find_id_other|].
    split; [|now split]. intros k Hk. now apply filter_In in Hk.
Qed.

(** X13.  Adding an entity under an id that the collection does not hold and
    deleting that id gives the state back (the delete dialog closed). *)
Theorem add_then_delete (s : AppState) (now : Z) (data : FormData.t) :
  (~ In now (map Knight.id (knights s)) ->
   run (CmdDelete TKnight now) (handleAddKnight now data s) = setItemToDelete None s)
  /\
  (~ In now (map Client.id (clients s)) ->
   run (CmdDelete TClient now) (handleAddClient now data s) = setItemToDelete None s).
Proof.
  destruct s as [ks cs ps sk sc n d e ex im dt].
  split; intros H; cbn in H;
    unfold run, handleDelete, handleAddKnight, handleAddClient, setItemToDelete,
      setKnights, setClients;
    cbn [knights clients parties selectedKnightIds selectedClientIds partyIdCounter
         itemToDelete itemToEdit isExportModalOpen isImportModalOpen
         exportedKnightData];
    f_equal; rewrite filter_app; cbn [filter Knight.id Client.id];
    rewrite Z.eqb_refl; cbn [negb]; rewrite app_nil_r; apply filter_all;
    intros x Hx.
  - destruct (Z.eqb_spec (Knight.id x) now) as [E|E]; [|reflexivity].
    exfalso. apply H. rewrite <- E. now apply in_map.
  - destruct (Z.eqb_spec (Client.id x) now) as [E|E]; [|reflexivity].
    exfalso. apply H. rewrite <- E. now apply in_map.
Qed.

(** X13, on Hong added to the initial state at clock 1. *)
Lemma add_then_delete_witness :
  ~ In 1 (map Knight.id (knights initialState))
  /\ run (CmdDelete TKnight 1) (handleAddKnight 1 formHong initialState)
     = setItemToDelete None initialState.
Proof.
  assert (H : ~ In 1 (map Knight.id (knights initialState))) by (intros []).
  split; [exact H|].
  exact (proj1 (add_then_delete initialState 1 formHong) H).
Defined.

(* ================================================================== *)
(** ** Blank import text *)
(* ================================================================== *)

Lemma dropWhile_nil_iff {A} (f : A -> bool) (l : list A) :
  dropWhile f l = [] <-> Forall (fun x => f x = true) l.
Proof.
  induction l as [|x l IH]; simpl; [split; [constructor | reflexivity]|].
  destruct (f x) eqn:E.
  - rewrite IH. split; [now constructor | now inversion 1].
  - split; [discriminate | inversion 1; congruence].
Qed.

Lemma trim_nil_iff (s : jsstring) :
  trim s = [] <-> Forall (fun c => isWhiteSpace c = true) s.
Proof.
  unfold trim, trimEnd, trimStart. split.
  - intros H. apply dropWhile_nil_iff.
    destruct (dropWhile isWhiteSpace s) as [|c r] eqn:E; [reflexivity|].
    exfalso. apply (f_equal (@rev _)) in H. rewrite rev_involutive in H.
    cbn [rev] in H. apply dropWhile_nil_iff in H.
    apply Forall_app in H. destruct H as [_ H]. inversion H as [|? ? Hc _]; subst.
    assert (Hd : dropWhile isWhiteSpace (c :: r) = c :: r).
    { rewrite <- E. clear. induction s as [|x s IH]; simpl; [reflexivity|].
      destruct (isWhiteSpace x) eqn:Ex; [exact IH|]. simpl. now rewrite Ex. }
    simpl in Hd. rewrite Hc in Hd.
    pose proof (dropWhile_length isWhiteSpace r) as Hl. rewrite Hd in Hl.
    simpl in Hl. lia.
  - intros H. apply dropWhile_nil_iff in H. now rewrite H.
Qed.

(** X14.  An import reports "nothing to insert" exactly when the text is
    empty or white space only, and then it changes nothing: the state is
    returned as it was, the import dialog still open. *)
Theorem handleImportKnights_blank (clock : nat -> Z) (data : jsstring) (s : AppState) :
  (Forall (fun c => isWhiteSpace c = true) data
   <-> snd (handleImportKnights clock data s) = Some AlertNoData)
  /\ (Forall (fun c => isWhiteSpace c = true) data ->
      handleImportKnights clock data s = (s, Some AlertNoData)).
Proof.
  assert (Hblank : Forall (fun c => isWhiteSpace c = true) data ->
                   handleImportKnights clock data s = (s, Some AlertNoData)).
  { intros H. apply trim_nil_iff in H. unfold handleImportKnights. now rewrite H. }
  split; [|exact Hblank]. split; [intros H; now rewrite (Hblank H)|].
  unfold handleImportKnights. destruct (trim data) as [|c r] eqn:E.
  - intros _. now apply trim_nil_iff.
  - cbn [truthy negb].
    destruct (forEachLine clock 0 (split LF (c :: r)) [] 0%nat). discriminate.
Qed.

(* ================================================================== *)
(** ** The selections on reachable states *)
(* ================================================================== *)





(* ================================================================== *)
(** ** The edit dialog *)
(* ================================================================== *)

(** X16.  Saving the edit dialog without touching a field changes nothing:
    for an item of the collection (unique ids) whose stored power is a
    multiple of 1000, the dialog starts from the item's name, job and
    power / 1000 (and a client's notes), and submitting that gives the state
    back, the dialog closed. *)
Theorem edit_without_change (s : AppState) :
  (forall k, In k (knights s) -> NoDup (map Knight.id (knights s)) ->
   (1000 | Knight.power k) ->
   run (CmdUpdateKnight k (editFormData (inl k))) s = setItemToEdit None s)
  /\
  (forall c, In c (clients s) -> NoDup (map Client.id (clients s)) ->
   (1000 | Client.power c) ->
   run (CmdUpdateClient c (editFormData (inr c))) s = setItemToEdit None s).
Proof.
  destruct s as [ks cs ps sk sc n d e ex im dt].
  split; intros x Hin Hnd [q Hq]; cbn in Hin, Hnd;
    unfold run, handleUpdateItem, setItemToEdit, setKnights, setClients, editFormData;
    cbn [knights clients parties selectedKnightIds selectedClientIds partyIdCounter
         itemToDelete itemToEdit isExportModalOpen isImportModalOpen
         exportedKnightData FormData.name FormData.job FormData.power FormData.notes];
    f_equal; apply map_id_on; intros y Hy.
  - destruct (Z.eqb_spec (Knight.id y) (Knight.id x)) as [E|E]; [|reflexivity].
    assert (y = x) by now apply (NoDup_ids_eq Knight.id ks).
    subst y. destruct x as [i nm jb pw rc st]. cbn in *. subst pw.
    now rewrite Z.div_mul by lia.
  - destruct (Z.eqb_spec (Client.id y) (Client.id x)) as [E|E]; [|reflexivity].
    assert (y = x) by now apply (NoDup_ids_eq Client.id cs).
    subst y. destruct x as [i nm jb pw nt st]. cbn in *. subst pw.
    now rewrite Z.div_mul by lia.
Qed.

(** X16, on Hong while in party 1 (power 50000). *)
Lemma edit_without_change_witness :
  In (Knight.withStatus knightHong KInParty) (knights stateParty)
  /\ NoDup (map Knight.id (knights stateParty))
  /\ (1000 | Knight.power (Knight.withStatus knightHong KInParty))
  /\ run (CmdUpdateKnight (Knight.withStatus knightHong KInParty)
            (editFormData (inl (Knight.withStatus knightHong KInParty)))) stateParty
     = setItemToEdit None stateParty.
Proof.
  assert (Hin : In (Knight.withStatus knightHong KInParty) (knights stateParty))
    by (vm_compute; now left).
  assert (Hnd : NoDup (map Knight.id (knights stateParty))).
  { vm_compute. constructor; [intros []|constructor]. }
  assert (Hd : (1000 | Knight.power (Knight.withStatus knightHong KInParty)))
    by (exists 50; reflexivity).
  split; [exact Hin | split; [exact Hnd | split; [exact Hd|]]].
  exact (proj1 (edit_without_change stateParty) _ Hin Hnd Hd).
Defined.

(* ================================================================== *)
(** ** The status labels *)
(* ================================================================== *)








(* ================================================================== *)
(** ** The off-duty separator of the knight list *)
(* ================================================================== *)

Lemma sortedKnights_groups (ks : list Knight.t) :
  sortedKnights ks
  = filter (fun k => KnightStatus_eqb (Knight.status k) KWaiting) ks
    ++ filter (fun k => KnightStatus_eqb (Knight.status k) KInParty) ks
    ++ filter (fun k => KnightStatus_eqb (Knight.status k) KOffDuty) ks.
Proof.
  pose (rank := fun k : Knight.t => statusOrder (Knight.status k)).
  assert (Hstable : forall st,
    filter (fun k => KnightStatus_eqb (Knight.status k) st) (sortedKnights ks)
    = filter (fun k => KnightStatus_eqb (Knight.status k) st) ks).
  { intros st. rewrite !filter_status_rank. apply (sortBy_filter_rank rank). }
  rewrite <- (Hstable KWaiting), <- (Hstable KInParty), <- (Hstable KOffDuty).
  rewrite !filter_status_rank.
  apply (sorted_three_groups rank); [|apply (sortBy_sorted rank)].
  apply Forall_forall. intros k _. unfold rank.
  destruct (Knight.status k); simpl; tauto.
Qed.

Lemma findIndexFrom_skip {A} (f : A -> bool) (index : Z) (front rest : list A) :
  Forall (fun x => f x = false) front ->
  findIndexFrom f index (front ++ rest)
  = findIndexFrom f (index + Z.of_nat (List.length front)) rest.
Proof.
  intros H. revert index. induction H as [|x l Hx _ IH]; intros index; simpl.
  - f_equal. lia.
  - rewrite Hx, IH. f_equal. lia.
Qed.

Lemma findIndexFrom_all {A} (f : A -> bool) (index : Z) (l : list A) :
  Forall (fun x => f x = true) l ->
  findIndexFrom f index l = match l with [] => -1 | _ => index end.
Proof.
  intros H. destruct H as [|x l Hx _]; simpl; [reflexivity | now rewrite Hx].
Qed.

Lemma firstn_length_app {A} (l1 l2 : list A) : firstn (List.length l1) (l1 ++ l2) = l1.
Proof. induction l1 as [|x l1 IH]; simpl; [now destruct l2 | now rewrite IH]. Qed.

Lemma skipn_length_app {A} (l1 l2 : list A) : skipn (List.length l1) (l1 ++ l2) = l2.
Proof. induction l1 as [|x l1 IH]; simpl; [reflexivity | exact IH]. Qed.

Lemma filter_status_counts (ks : list Knight.t) :
  List.length (filter (fun k => negb (KnightStatus_eqb (Knight.status k) KOffDuty)) ks)
  = List.length (filter (fun k => KnightStatus_eqb (Knight.status k) KWaiting) ks
                 ++ filter (fun k => KnightStatus_eqb (Knight.status k) KInParty) ks).
Proof.
  rewrite length_app. induction ks as [|k ks IH]; simpl; [reflexivity|].
  destruct (Knight.status k); simpl; lia.
Qed.

(** X18.  Where the knight list draws its off-duty separator.  With [n] the
    number of knights that are not off duty: [firstOffDutyIndex] is [n] when
    some knight is off duty and -1 when none is; the first [n] cards are the
    knights not off duty and the cards after them are the knights off duty;
    and the separator is drawn at one position at most, above card [n], and
    only when there are knights on both sides of it. *)
Theorem off_duty_separator (ks : list Knight.t) :
  let n := List.length
             (filter (fun k => negb (KnightStatus_eqb (Knight.status k) KOffDuty)) ks) in
  firstOffDutyIndex ks = (if (n <? List.length ks)%nat then Z.of_nat n else -1)
  /\ Forall (fun k => Knight.status k <> KOffDuty) (firstn n (sortedKnights ks))
  /\ Forall (fun k => Knight.status k = KOffDuty) (skipn n (sortedKnights ks))
  /\ forall index,
       separatorAt ks index = true
       <-> index = Z.of_nat n /\ (0 < n < List.length ks)%nat.
Proof.
  intros n.
  set (front := filter (fun k => KnightStatus_eqb (Knight.status k) KWaiting) ks
                ++ filter (fun k => KnightStatus_eqb (Knight.status k) KInParty) ks).
  set (off := filter (fun k => KnightStatus_eqb (Knight.status k) KOffDuty) ks).
  assert (Hs : sortedKnights ks = front ++ off).
  { rewrite sortedKnights_groups. unfold front, off. now rewrite app_assoc. }
  assert (Hn : n = List.length front) by apply filter_status_counts.
  assert (Hlen : List.length ks = (n + List.length off)%nat).
  { rewrite (Permutation_length (sortBy_perm
               (fun k => statusOrder (Knight.status k)) ks)).
    change (List.length (sortedKnights ks) = (n + List.length off)%nat).
    rewrite Hs, length_app. lia. }
  assert (Hfront : Forall (fun k => Knight.status k <> KOffDuty) front).
  { apply Forall_app. split; apply Forall_forall; intros k Hk;
      apply filter_In in Hk; destruct Hk as [_ Hk];
      destruct (Knight.status k); discriminate. }
  assert (Hoff : Forall (fun k => Knight.status k = KOffDuty) off).
  { apply Forall_forall. intros k Hk. apply filter_In in Hk. destruct Hk as [_ Hk].
    now destruct (Knight.status k). }
  assert (Hidx : firstOffDutyIndex ks
                 = (if (n <? List.length ks)%nat then Z.of_nat n else -1)).
  { unfold firstOffDutyIndex, findIndex. rewrite Hs, findIndexFrom_skip.
    - rewrite findIndexFrom_all.
      + rewrite <- Hn. destruct off as [|k l].
        * simpl in Hlen. destruct (Nat.ltb_spec n (List.length ks)); [lia | reflexivity].
        * simpl in Hlen. destruct (Nat.ltb_spec n (List.length ks)); [lia | lia].
      + eapply Forall_impl; [|exact Hoff]. cbv beta. intros k ->. reflexivity.
    - eapply Forall_impl; [|exact Hfront]. cbv beta. intros k Hk.
      now destruct (Knight.status k). }
  split; [exact Hidx|]. split; [|split].
  - rewrite Hs, Hn, firstn_length_app. exact Hfront.
  - rewrite Hs, Hn, skipn_length_app. exact Hoff.
  - intros index. unfold separatorAt. rewrite Hidx.
    destruct (Nat.ltb_spec n (List.length ks)) as [Hlt|Hge].
    + rewrite andb_true_iff, Z.eqb_eq, Z.gtb_lt. lia.
    + rewrite andb_true_iff, Z.eqb_eq, Z.gtb_lt. lia.
Qed.

(* ================================================================== *)
(** ** The exported text, imported and exported again *)
(* ================================================================== *)

Lemma handleImportKnights_exported (clock : nat -> Z) (s : AppState) (ks : list Knight.t) :
  ks <> [] -> Forall exportable ks ->
  handleImportKnights clock (exportKnightRoster ks) s
  = (setIsImportModalOpen false
       (setKnights (knights s ++ reimported clock 0 (sortedKnights ks)) s),
     Some (AlertImported (List.length ks) 0)).
Proof.
  intros Hne Hall.
  assert (Hperm : Permutation ks (sortedKnights ks))
    by apply (sortBy_perm (fun k => statusOrder (Knight.status k))).
  assert (Hall' : Forall exportable (sortedKnights ks))
    by (eapply Permutation_Forall; eassumption).
  assert (Hne' : sortedKnights ks <> []).
  { intros E. rewrite E in Hperm. apply Permutation_sym, Permutation_nil in Hperm.
    congruence. }
  destruct (exportKnightRoster_trim _ Hne' Hall') as (c & r & Ec & Et).
  unfold handleImportKnights, exportKnightRoster. rewrite Et. rewrite Ec at 1.
  simpl truthy. simpl negb. cbv iota.
  rewrite split_join.
  - rewrite (forEachLine_exported clock _ Hall'). simpl app.
    rewrite reimported_length, <- (Permutation_length Hperm).
    destruct (reimported clock 0 (sortedKnights ks)) eqn:E; [|reflexivity].
    destruct (sortedKnights ks); [congruence | discriminate].
  - destruct (sortedKnights ks); simpl; congruence.
  - apply Forall_map. eapply Forall_impl; [|exact Hall']. cbv beta.
    intros k ((_ & _ & _ & Hn) & (_ & _ & _ & Hj) & _).
    now apply exportLine_no_LF.
Qed.

Lemma sortBy_same_rank {A} (rank : A -> Z) (r : Z) (l : list A) :
  Forall (fun x => rank x = r) l -> sortBy (fun a b => rank a - rank b) l = l.
Proof.
  induction 1 as [|x l Hx Hl IH]; simpl; [reflexivity|]. rewrite IH.
  destruct Hl as [|y l Hy _]; simpl; [reflexivity|].
  rewrite Hx, Hy, Z.sub_diag. reflexivity.
Qed.

Lemma reimported_lines (clock : nat -> Z) (index : nat) (ks : list Knight.t) :
  map exportLine (reimported clock index ks) = map exportLine ks
  /\ Forall (fun k => Knight.status k = KOffDuty) (reimported clock index ks).
Proof.
  revert index. induction ks as [|k ks IH]; intros index; simpl;
    [split; [reflexivity | constructor]|].
  destruct (IH (S index)) as [E H]. split; [now rewrite E | now constructor].
Qed.

(** X19.  The text format is stable under a round trip: for a non-empty
    roster of exportable knights, importing its export into an empty roster
    and exporting again gives the same text, line for line. *)
Theorem export_import_export (clock : nat -> Z) (s : AppState) (ks : list Knight.t) :
  knights s = [] -> ks <> [] -> Forall exportable ks ->
  exportKnightRoster
    (knights (fst (handleImportKnights clock (exportKnightRoster ks) s)))
  = exportKnightRoster ks.
Proof.
  intros Hs Hne Hall. rewrite (handleImportKnights_exported clock s ks Hne Hall).
  cbn [fst knights setIsImportModalOpen setKnights]. rewrite Hs. cbn [app].
  destruct (reimported_lines clock 0 (sortedKnights ks)) as [Hlines Hoff].
  unfold exportKnightRoster at 1. unfold sortedKnights at 1.
  rewrite (sortBy_same_rank (fun k => statusOrder (Knight.status k)) 3).
  - now rewrite Hlines.
  - eapply Forall_impl; [|exact Hoff]. cbv beta. now intros k ->.
Qed.

(** X19, on the mixed roster. *)
Lemma export_import_export_witness :
  knights initialState = [] /\ rosterMixed <> [] /\ Forall exportable rosterMixed
  /\ exportKnightRoster
       (knights (fst (handleImportKnights clockAt100 (exportKnightRoster rosterMixed)
                        initialState)))
     = exportKnightRoster rosterMixed.
Proof.
  assert (Hne : rosterMixed <> []) by discriminate.
  assert (Hall : Forall exportable rosterMixed).
  { repeat constructor; try discriminate; vm_compute; intuition discriminate. }
  split; [reflexivity | split; [exact Hne | split; [exact Hall|]]].
  exact (export_import_export clockAt100 initialState rosterMixed eq_refl Hne Hall).
Defined.

(* ================================================================== *)
(** ** Text after the digits of a number field *)
(* ================================================================== *)





(* ================================================================== *)
(** ** Selecting twice; forming a party and completing it *)
(* ================================================================== *)

Lemma toggleId_twice (id : Z) (prev : list Z) :
  ~ In id prev -> toggleId id (toggleId id prev) = prev.
Proof.
  intros H. unfold toggleId at 2.
  rewrite (proj2 (includes_false prev id) H). unfold toggleId.
  assert (E : includes (prev ++ [id]) id = true)
    by (apply includes_In, in_app_iff; right; now left).
  rewrite E, filter_app. simpl. rewrite Z.eqb_refl. simpl. rewrite app_nil_r.
  apply filter_all. intros x Hx. destruct (Z.eqb_spec x id); [congruence | reflexivity].
Qed.

(** X21.  Ticking and unticking: [toggleSelection] applied twice to an id
    that was not selected gives the state back, for a knight and for a
    client, whether the guard on the status lets the toggles through or
    stops both. *)
Theorem toggleSelection_twice (s : AppState) (id : Z) :
  (~ In id (selectedKnightIds s) ->
   toggleSelection id TKnight (toggleSelection id TKnight s) = s)
  /\
  (~ In id (selectedClientIds s) ->
   toggleSelection id TClient (toggleSelection id TClient s) = s).
Proof.
  destruct s as [ks cs ps sk sc n d e ex im dt].
  split; intros H; cbn in H; unfold toggleSelection;
    cbn [knights clients selectedKnightIds selectedClientIds].
  - destruct (find (fun k => Knight.id k =? id) ks) as [k|] eqn:E.
    + destruct (negb (KnightStatus_eqb (Knight.status k) KWaiting)) eqn:Eg.
      * cbn [knights]. now rewrite E, Eg.
      * unfold setSelectedKnightIds. cbn [knights selectedKnightIds clients parties
          selectedClientIds partyIdCounter itemToDelete itemToEdit isExportModalOpen
          isImportModalOpen exportedKnightData].
        rewrite E, Eg. f_equal. now apply toggleId_twice.
    + unfold setSelectedKnightIds. cbn [knights selectedKnightIds clients parties
        selectedClientIds partyIdCounter itemToDelete itemToEdit isExportModalOpen
        isImportModalOpen exportedKnightData].
      rewrite E. f_equal. now apply toggleId_twice.
  - destruct (find (fun c => Client.id c =? id) cs) as [c|] eqn:E.
    + destruct (negb (ClientStatus_eqb (Client.status c) CWaiting)) eqn:Eg.
      * cbn [clients]. now rewrite E, Eg.
      * unfold setSelectedClientIds. cbn [knights selectedKnightIds clients parties
          selectedClientIds partyIdCounter itemToDelete itemToEdit isExportModalOpen
          isImportModalOpen exportedKnightData].
        rewrite E, Eg. f_equal. now apply toggleId_twice.
    + unfold setSelectedClientIds. cbn [knights selectedKnightIds clients parties
        selectedClientIds partyIdCounter itemToDelete itemToEdit isExportModalOpen
        isImportModalOpen exportedKnightData].
      rewrite E. f_equal. now apply toggleId_twice.
Qed.

(** X21, on Kim's id in the initial state. *)
Lemma toggleSelection_twice_witness :
  ~ In 2 (selectedClientIds initialState)
  /\ toggleSelection 2 TClient (toggleSelection 2 TClient initialState) = initialState.
Proof.
  assert (H : ~ In 2 (selectedClientIds initialState)) by (intros []).
  split; [exact H|]. exact (proj2 (toggleSelection_twice initialState 2) H).
Defined.




